(** * RSA_Factorization: staged factorisation pipeline

    A shallow embedding of [RSA_Multi_Method.py] (the special-prime sieve and
    the staged orchestrator) and of [John_D_Cook.py] (the finite-field probe,
    the fan-out driver and the product check), with the properties of the
    specification stated against it.

    Python integers are [Z]; [//] and [%] are [Z.div] and [Z.modulo] (both
    floor, as in Python).  A raised exception that leaves a function is
    [None] in the [option] monad.  In [John_D_Cook.py], which runs on plain
    Python ints, formatting an int of more than 4300 digits raises
    [ValueError], so a [print] under [if verbose] can fail.  The numpy bit
    arrays are [list bool] with checked indexing.  Python sets are
    [gset Z]. *)

From Stdlib Require Import ZArith List Lia Znumtheory.
From stdpp Require Import base option numbers list sorting gmap.

Open Scope Z_scope.

(** ** Python and numpy primitives used by the sources *)

Module Py.

(** [range(start, stop)]. *)
Definition range (start stop : Z) : list Z := seqZ start (stop - start).

(** [range(start, stop, step)], for the positive steps the sources use. *)
Definition range3 (start stop step : Z) : list Z :=
  (λ t, start + t * step) <$> seqZ 0 ((stop - start + step - 1) `div` step).

(** [np.ones(n, dtype=bool)]: a negative dimension raises [ValueError]. *)
Definition np_ones (n : Z) : option (list bool) :=
  if n <? 0 then None else Some (replicate (Z.to_nat n) true).

(** numpy index normalisation: a negative index counts from the end, an index
    outside the array raises [IndexError]. *)
Definition np_index (a : list bool) (j : Z) : option nat :=
  let len := Z.of_nat (length a) in
  if (0 <=? j) && (j <? len) then Some (Z.to_nat j)
  else if (j <? 0) && (0 <=? len + j) then Some (Z.to_nat (len + j))
  else None.

(** [a[j]] *)
Definition np_get (a : list bool) (j : Z) : option bool :=
  i ← np_index a j; a !! i.

(** [a[j] = v] *)
Definition np_set (a : list bool) (j : Z) (v : bool) : option (list bool) :=
  i ← np_index a j; Some (<[i:=v]> a).

(** [int(sqrt(n))] with Sage's [sqrt]: the floor of the root of a
    non-negative integer; the root of a negative one is not real and [int]
    raises [TypeError]. *)
Definition int_sqrt (n : Z) : option Z :=
  if n <? 0 then None else Some (Z.sqrt n).

(** [l.sort()] / [sorted(l)] on integers. *)
Definition sorted (l : list Z) : list Z := merge_sort Z.le l.

(** CPython's limit on conversions between [int] and [str]
    ([sys.int_max_str_digits], 4300 unless reconfigured): formatting an int
    of more decimal digits, or reading a longer numeral, raises
    [ValueError]. *)
Definition int_max_str_digits : Z := 4300.

(** [str(z)], [repr(z)] and [f"{z}"] return. *)
Definition str_ok (z : Z) : bool := Z.abs z <? 10 ^ int_max_str_digits.
Arguments str_ok : simpl never.

(** [int(s)] for the string [s] that holds the decimal numeral of [z]. *)
Definition int_of_numeral (z : Z) : option Z :=
  if str_ok z then Some z else None.

(** [print(f"... {l}")] for a list or set of ints, under [if verbose]. *)
Definition print_ints (verbose : bool) (l : list Z) : option unit :=
  if verbose && negb (forallb str_ok l) then None else Some ().

(** [float(z)] returns: the int rounds to a finite double. *)
Definition float_ok (z : Z) : bool := Z.abs z <? 2 ^ 1024 - 2 ^ 970.

End Py.

(** ** The special-prime sieve ([generate_special_primes]) *)

Module Sieve.
Import Py.

(** [for j in js: sieve[j] = False] *)
Fixpoint mark (js : list Z) (sieve : list bool) : option (list bool) :=
  match js with
  | [] => Some sieve
  | j :: js' => s ← np_set sieve j false; mark js' s
  end.

(** The work done for [p = 6*i + 1] when [sieve_1[i]] is set. *)
Definition cross_out_1 (max_idx_1 max_idx_5 i : Z) (st : list bool * list bool)
  : option (list bool * list bool) :=
  let p := 6 * i + 1 in
  sieve_1 ← mark (range3 (i + p) (max_idx_1 + 1) p) st.1;
  let start := (p * 5 - 5) `div` 6 in
  sieve_5 ← (if 0 <? start
             then mark (range3 start (max_idx_5 + 1) p) st.2
             else Some st.2);
  Some (sieve_1, sieve_5).

(** The work done for [p = 6*i + 5] when [sieve_5[i]] is set. *)
Definition cross_out_5 (max_idx_1 max_idx_5 i : Z) (st : list bool * list bool)
  : option (list bool * list bool) :=
  let p := 6 * i + 5 in
  let start := (p * 1 - 1) `div` 6 in
  sieve_1 ← (if 0 <? start
             then mark (range3 start (max_idx_1 + 1) p) st.1
             else Some st.1);
  let start := (p * 5 - 5) `div` 6 in
  sieve_5 ← (if 0 <? start
             then mark (range3 start (max_idx_5 + 1) p) st.2
             else Some st.2);
  Some (sieve_1, sieve_5).

(** One iteration of the sieving loop, on the pair [(sieve_1, sieve_5)]. *)
Definition sieve_step (max_idx_1 max_idx_5 i : Z) (st : list bool * list bool)
  : option (list bool * list bool) :=
  b1 ← np_get st.1 i;
  st1 ← (if b1 : bool then cross_out_1 max_idx_1 max_idx_5 i st else Some st);
  b5 ← (if i <=? max_idx_5 then np_get st1.2 i else Some false);
  if b5 : bool then cross_out_5 max_idx_1 max_idx_5 i st1 else Some st1.

(** [for i in is: <sieve_step>] *)
Fixpoint sieve_loop (max_idx_1 max_idx_5 : Z) (idxs : list Z)
    (st : list bool * list bool) : option (list bool * list bool) :=
  match idxs with
  | [] => Some st
  | i :: idxs' =>
      st' ← sieve_step max_idx_1 max_idx_5 i st;
      sieve_loop max_idx_1 max_idx_5 idxs' st'
  end.

(** [for i in is: if sieve[i]: special_primes.append(6*i + r)] *)
Fixpoint collect (r : Z) (sieve : list bool) (idxs : list Z)
    (special_primes : list Z) : option (list Z) :=
  match idxs with
  | [] => Some special_primes
  | i :: idxs' =>
      b ← np_get sieve i;
      collect r sieve idxs'
        (if b : bool then special_primes ++ [6 * i + r] else special_primes)
  end.

Definition generate_special_primes (max_value : Z) : option (list Z) :=
  let special_primes := [3] in
  let max_idx_1 := (max_value - 1) `div` 6 in
  let max_idx_5 := (max_value - 5) `div` 6 in
  sieve_1 ← np_ones (max_idx_1 + 1);
  sieve_5 ← np_ones (max_idx_5 + 1);
  root ← int_sqrt max_value;
  st ← sieve_loop max_idx_1 max_idx_5 (range 1 (root `div` 6 + 1))
         (sieve_1, sieve_5);
  special_primes ← collect 1 st.1 (range 1 (max_idx_1 + 1)) special_primes;
  special_primes ← collect 5 st.2 (range 1 (max_idx_5 + 1)) special_primes;
  Some (sorted special_primes).

End Sieve.

(** ** The finite-field probe and its driver ([John_D_Cook.py]) *)

Module Probe.
Import Py.

(** The value of [p ** k]: an [int] for [k >= 0]; for [k < 0] Python answers
    with a [float], which here is only ever compared with [10**12]. *)
Inductive pynum := PyInt (z : Z) | PyFloat.

(** [p ** k].  With a negative exponent both operands are converted to
    floats: an operand that rounds to no finite double raises
    [OverflowError], [0 ** k] raises [ZeroDivisionError], and otherwise the
    result is a float of magnitude at most 1. *)
Definition py_pow (p k : Z) : option pynum :=
  if 0 <=? k then Some (PyInt (p ^ k))
  else if (p =? 0) || negb (float_ok p) || negb (float_ok k) then None
  else Some PyFloat.

(** [q > bound] *)
Definition num_gt (q : pynum) (bound : Z) : bool :=
  match q with PyInt z => bound <? z | PyFloat => false end.

(** [q % m == 1]; a float power has magnitude at most 1 and is its own
    remainder, so it equals 1 only when it is [1.0], which no caller reaches:
    the test runs under [k == 1], where [q] is an int. *)
Definition num_mod_is_1 (q : pynum) (m : Z) : bool :=
  match q with PyInt z => z `mod` m =? 1 | PyFloat => false end.

(** [f"{q}"] returns; a float always formats. *)
Definition num_str_ok (q : pynum) : bool :=
  match q with PyInt z => str_ok z | PyFloat => true end.

(** What the probe prints when [verbose] is set. *)
Inductive msg :=
| FieldTooLarge (q : pynum)
| ExtensionNotImplemented (k : Z)
| OverField (q : pynum) (m : Z)
| FoundNewFactor (v : Z)
| ErrorProcessingFactor
| ErrorFactoringPolynomial (m : Z)
| ErrorCreatingField (q : pynum).

(** The f-string of a line can be built: every int in it converts.  The
    polynomial and the exception texts of the error lines are taken to
    format without raising. *)
Definition printable (line : msg) : bool :=
  match line with
  | FieldTooLarge q | ErrorCreatingField q => num_str_ok q
  | ExtensionNotImplemented k => str_ok k
  | OverField q m => num_str_ok q && str_ok m
  | FoundNewFactor v => str_ok v
  | ErrorProcessingFactor => true
  | ErrorFactoringPolynomial m => str_ok m
  end.

(** The probe's mutable state: the set [factors], the printed lines, and a
    ghost record of the exponents [m] whose loop body was entered. *)
Record st := St { factors : gset Z; out : list msg; visited : list Z }.

Definition init : st := St ∅ [] [].

(** A line reaches the output when [verbose] is set. *)
Definition say (verbose : bool) (line : msg) (s : st) : st :=
  if verbose then St (factors s) (out s ++ [line]) (visited s) else s.

(** [if verbose: print(f"...")]: [None] when building the line raises
    [ValueError]. *)
Definition print (verbose : bool) (line : msg) (s : st) : option st :=
  if verbose && negb (printable line) then None
  else Some (say verbose line s).

Definition add (v : Z) (s : st) : st :=
  St ({[v]} ∪ factors s) (out s) (visited s).

Definition enter (m : Z) (s : st) : st :=
  St (factors s) (out s) (visited s ++ [m]).

(** How a block inside the outer [try] ends: normally, or with an exception
    on its way to the handler of line 75; either way with the state
    reached. *)
Inductive flow := Done (s : st) | Raised (s : st).

Definition state (f : flow) : st :=
  match f with Done s | Raised s => s end.

(** A statement that may raise, at state [s]. *)
Definition attempt (r : option st) (s : st) : flow :=
  match r with Some s' => Done s' | None => Raised s end.

(** Lines 55-57: the coefficients as [all_coeffs()] gives them (highest
    degree first) are reversed, enumerated and summed with weights [p ** i]. *)
Definition factor_value (p : Z) (coeffs : list Z) : Z :=
  foldl (λ factor_value ic, factor_value + ic.2 * p ^ Z.of_nat ic.1) 0
        (imap pair (reverse coeffs)).

Section Collaborators.

(** sympy's [Poly(x**m - 1, domain=GF(p)).factor_list()[1]], arguments
    [m] then [p]: [None] when building or factoring the polynomial raises;
    otherwise one entry per irreducible factor, [Some coeffs] with
    [coeffs = [int(c) for c in factor_poly.all_coeffs()]], or [None] when
    reading that factor raises. *)
Variable factor_list : Z → Z → option (list (option (list Z))).

(** Lines 52-67: the body of the loop over the irreducible factors.  The
    print of line 62 stands before [factors.add] inside the [try]: when it
    raises, the handler of line 64 runs and the factor is not added. *)
Definition process_factor (p n : Z) (verbose : bool)
    (s : st) (fact : option (list Z)) : st :=
  match fact with
  | None => say verbose ErrorProcessingFactor s
  | Some coeffs =>
      let v := factor_value p coeffs in
      if negb (v =? 0) && (n `mod` v =? 0) then
        if decide (v ∈ factors s) then s
        else match print verbose (FoundNewFactor v) s with
             | Some s' => add v s'
             | None => say verbose ErrorProcessingFactor s
             end
      else s
  end.

(** How one pass of the loop over [m] ends: at its end or at a [continue],
    at the [break], or with an exception that leaves the loop. *)
Inductive pass := Continue (s : st) | Break (s : st) | Escape (s : st).

Definition pass_state (r : pass) : st :=
  match r with Continue s | Break s | Escape s => s end.

(** Lines 44-74: the body of the loop over [m].  The prints of lines 45
    and 70 are outside the inner [try]: when one raises, the loop is left
    for the outer handler. *)
Definition loop_body (p : Z) (q : pynum) (n : Z) (verbose : bool)
    (m : Z) (s : st) : pass :=
  let s := enter m s in
  match print verbose (OverField q m) s with
  | None => Escape s
  | Some s =>
      match factor_list m p with
      | None =>
          match print verbose (ErrorFactoringPolynomial m) s with
          | None => Escape s
          | Some s => Continue s
          end
      | Some factorization =>
          let s := foldl (process_factor p n verbose) s factorization in
          if (m =? p) || num_mod_is_1 q m then Break s else Continue s
      end
  end.

(** Lines 43-74: [for m in ms]. *)
Fixpoint m_loop (p : Z) (q : pynum) (n : Z) (verbose : bool)
    (ms : list Z) (s : st) : flow :=
  match ms with
  | [] => Done s
  | m :: ms' =>
      match loop_body p q n verbose m s with
      | Continue s' => m_loop p q n verbose ms' s'
      | Break s' => Done s'
      | Escape s' => Raised s'
      end
  end.

(** Lines 25-74, the body of the outer [try].  sympy's [GF(p)] raises
    [ValueError] for a modulus [p <= 0]. *)
Definition body (p : Z) (q : pynum) (k n : Z) (verbose : bool) : flow :=
  if num_gt q (10 ^ 12) then
    attempt (print verbose (FieldTooLarge q) init) init
  else if k =? 1 then
    if p <=? 0 then Raised init
    else m_loop p q n verbose (range 3 (p + 1)) init
  else attempt (print verbose (ExtensionNotImplemented k) init) init.

(** The probe with its state; [None] is an exception leaving the function:
    from [p ** k], which is evaluated outside the [try], or from the print
    of the handler of lines 75-77, which nothing catches. *)
Definition run (args : Z * Z * Z * bool) : option st :=
  let '(p, k, n, verbose) := args in
  q ← py_pow p k;
  match body p q k n verbose with
  | Done s => Some s
  | Raised s => print verbose (ErrorCreatingField q) s
  end.

(** [return list(factors)]: the elements in some order. *)
Definition laplacian_eigenfunction_approach (args : Z * Z * Z * bool)
  : option (list Z) :=
  s ← run args; Some (elements (factors s)).

(** sympy's [isprime] and [factorint(n).items()]. *)
Variable isprime : Z → bool.
Variable factorint : Z → list (Z * Z).

(** Lines 101-107. *)
Definition initial_factors (n : Z) : gset Z :=
  if isprime n then {[n]} ∪ ∅
  else foldl (λ factors pe,
                foldl (λ factors _, {[pe.1]} ∪ factors) factors
                      (range 0 pe.2))
             ∅ (factorint n).

(** Line 116. *)
Definition prime_factors (factors : gset Z) : list Z :=
  filter (λ p, isprime p = true ∧ (p `mod` 6 = 1 ∨ p `mod` 6 = 5))
         (elements factors).

(** Lines 119-122. *)
Definition args_list (n : Z) (max_power_list : list Z) (ps : list Z)
  : list (Z * Z * Z * bool) :=
  p ← ps; k ← max_power_list; [(p, k, n, false)].

(** Lines 129-134: [pool.map] returns the results in task order and
    re-raises a worker's exception; each result is merged with [update]. *)
Definition merged_factors (n : Z) (max_power_list : list Z)
  : option (gset Z) :=
  let factors := initial_factors n in
  results ← mapM laplacian_eigenfunction_approach
                 (args_list n max_power_list (prime_factors factors));
  Some (foldl (λ factors result, factors ∪ list_to_set result)
              factors results).

(** Lines 92-140 on an int [n]; line 113 prints the initial set. *)
Definition find_factors_using_finite_fields (n : Z)
    (max_power_list : list Z) (verbose : bool) : option (list Z) :=
  _ ← print_ints verbose (elements (initial_factors n));
  factors ← merged_factors n max_power_list;
  Some (sorted (elements factors)).

End Collaborators.

(** Lines 142-157. *)
Definition verify_factorization (number : Z) (factors : list Z) : bool :=
  let product := foldl (λ product factor, product * factor) 1 factors in
  product =? number.

End Probe.

(** ** The staged orchestrator ([factor_large_semiprime]) *)

Module Orchestrator.
Import Py Sieve.

(** The [return] statement that produced the result: one per stage, and the
    final [return []]. *)
Inductive stage := Direct | SmallPrime | SpecialPrime | Cyclotomic | Exhausted.

Definition small_primes : list Z :=
  [3; 5; 7; 11; 13; 17; 19; 23; 29; 31; 37; 41; 43; 47; 53; 59; 61; 67].

Definition batch_size : Z := 1000.

(** [l[a:b]] for [0 <= a <= b <= len(l)]. *)
Definition slice (l : list Z) (a b : Z) : list Z :=
  take (Z.to_nat (b - a)) (drop (Z.to_nat a) l).

(** [l[::step]], started with [skip = 0]. *)
Fixpoint stride (step skip : nat) (l : list Z) : list Z :=
  match l with
  | [] => []
  | x :: l' =>
      match skip with
      | O => x :: stride step (step - 1) l'
      | S skip' => stride step skip' l'
      end
  end.

Section Collaborators.

(** Sage's [factor]: the (prime, exponent) pairs of the factorisation, or
    [None] when it raises. *)
Variable factor : Z → option (list (Z * Z)).
(** Sage's [is_prime]. *)
Variable is_prime : Z → bool.
(** Sage's [GF(q, 'a')]: whether the field is built ([false]: it raises). *)
Variable GF : Z → bool.
(** Whether [cyclotomic_polynomial(m).change_ring(GF(q))] vanishes at the
    integer [x], arguments [q], [m], [x]; [None] when that raises. *)
Variable cyclotomic_vanishes : Z → Z → Z → option bool.

(** The branching shared by stages 2, 3 and 4 once [p] divides [n]
    (lines 112-129): [None] is [factor(other)] raising. *)
Definition split_off (n p : Z) : option (list Z) :=
  let other := n `div` p in
  if is_prime other then Some [p; other]
  else
    sub_factors ← factor other;
    Some (sorted (foldl (λ result fe, result ++ [fe.1]) [p] sub_factors)).

(** [for p in ps: if n % p == 0: ...return...].  The outer [option] is the
    exception, the inner one the early [return]: [Some None] means the loop
    ran to its end.  The candidates are the literal list and the sieve's
    output, none of them 0. *)
Fixpoint trial_division (n : Z) (ps : list Z) : option (option (list Z)) :=
  match ps with
  | [] => Some None
  | p :: ps' =>
      if n `mod` p =? 0 then fs ← split_off n p; Some (Some fs)
      else trial_division n ps'
  end.

(** Lines 143-175: the batches of stage 3. *)
Fixpoint batch_loop (n : Z) (special_primes : list Z) (batch_idxs : list Z)
  : option (option (list Z)) :=
  match batch_idxs with
  | [] => Some None
  | batch_idx :: rest =>
      let start_idx := batch_idx * batch_size in
      let end_idx := Z.min ((batch_idx + 1) * batch_size)
                           (Z.of_nat (length special_primes)) in
      let current_batch := slice special_primes start_idx end_idx in
      r ← trial_division n current_batch;
      match r with
      | Some fs => Some (Some fs)
      | None => batch_loop n special_primes rest
      end
  end.

(** Lines 199-222, one [m]: [Some fs] is [return fs]; every exception,
    that of [factor(other)] included, is swallowed by [except: pass]. *)
Definition cyclotomic_try (n p q m : Z) : option (list Z) :=
  match cyclotomic_vanishes q m (n `mod` p) with
  | Some true => if n `mod` p =? 0 then split_off n p else None
  | _ => None
  end.

Fixpoint cyclotomic_m_loop (n p q : Z) (ms : list Z) : option (list Z) :=
  match ms with
  | [] => None
  | m :: ms' =>
      match cyclotomic_try n p q m with
      | Some fs => Some fs
      | None => cyclotomic_m_loop n p q ms'
      end
  end.

(** Lines 188-224: [for k in ks], left by [break] when the field is too
    large or cannot be built. *)
Fixpoint power_loop (n p : Z) (ks : list Z) : option (list Z) :=
  match ks with
  | [] => None
  | k :: ks' =>
      let q := p ^ k in
      if 10 ^ 6 <? q then None
      else if negb (GF q) then None
      else match cyclotomic_m_loop n p q (range 3 7) with
           | Some fs => Some fs
           | None => power_loop n p ks'
           end
  end.

Fixpoint selected_loop (n max_attempts : Z) (selected_primes : list Z)
  : option (list Z) :=
  match selected_primes with
  | [] => None
  | p :: rest =>
      match power_loop n p (range 1 (max_attempts + 1)) with
      | Some fs => Some fs
      | None => selected_loop n max_attempts rest
      end
  end.

(** Stages 3 and 4 and the final [return []]. *)
Definition special_stages (n max_prime max_attempts : Z)
  : option (stage * list Z) :=
  root ← int_sqrt n;
  special_primes ← generate_special_primes (Z.min (root + 1) max_prime);
  let total_batches :=
    (Z.of_nat (length special_primes) + batch_size - 1) `div` batch_size in
  r ← batch_loop n special_primes (range 0 total_batches);
  match r with
  | Some fs => Some (SpecialPrime, fs)
  | None =>
      let selected_primes := stride 10 0 special_primes in
      match selected_loop n max_attempts selected_primes with
      | Some fs => Some (Cyclotomic, fs)
      | None => Some (Exhausted, [])
      end
  end.

(** The orchestrator: the stage that returned and the list it returned, or
    [None] when an exception leaves the function. *)
Definition factor_large_semiprime (n max_prime max_attempts : Z)
  : option (stage * list Z) :=
  match factor n with
  | Some factors => Some (Direct, (λ pe, pe.1) <$> factors)
  | None =>
      r ← trial_division n small_primes;
      match r with
      | Some fs => Some (SmallPrime, fs)
      | None => special_stages n max_prime max_attempts
      end
  end.

End Collaborators.

End Orchestrator.

(** ** The two scripts' entry points *)

Module Main.
Import Py Probe Orchestrator.

(** What [RSA_Multi_Method.py] prints under "RESULTS": no factors, or the
    factors and, for exactly two of them, whether their product is the
    input. *)
Inductive report :=
| NoFactorsFound
| Factors (factors : list Z) (correct : option bool).

Section Collaborators.

Variable factor : Z → option (list (Z * Z)).
Variable is_prime : Z → bool.
Variable GF : Z → bool.
Variable cyclotomic_vanishes : Z → Z → Z → option bool.

(** [RSA_Multi_Method.py], lines 234-252, for the number it is run on. *)
Definition rsa_multi_method_main (large_semiprime : Z) : option report :=
  r ← factor_large_semiprime factor is_prime GF cyclotomic_vanishes
         large_semiprime 10000 2;
  let factors := r.2 in
  Some (match factors with
        | [] => NoFactorsFound
        | [p; q] => Factors factors (Some (p * q =? large_semiprime))
        | _ => Factors factors None
        end).

Variable factor_list : Z → Z → option (list (option (list Z))).
Variable isprime : Z → bool.
Variable factorint : Z → list (Z * Z).

(** [John_D_Cook.py], lines 159-168, for the number [number_to_factor]
    whose decimal numeral the script holds as a string: the factors found
    and the verdict of the verification.  The string goes through [int] in
    the driver (line 95) and again in the verification (line 153), and the
    driver runs with [verbose=True]. *)
Definition john_d_cook_main (number_to_factor : Z) : option (list Z * bool) :=
  let max_power_list := [2; 3] in
  n ← int_of_numeral number_to_factor;
  found_factors ← find_factors_using_finite_fields factor_list isprime
                     factorint n max_power_list true;
  _ ← print_ints true found_factors;
  number ← int_of_numeral number_to_factor;
  let is_correct := verify_factorization number found_factors in
  Some (found_factors, is_correct).

End Collaborators.

End Main.

(** ** Reference collaborators

    Executable stand-ins for the external libraries, used to run the
    pipeline on concrete targets. *)

Module Reference.
Import Py.

(** Primality by trial division, as Sage's [is_prime] and sympy's [isprime]
    decide it. *)
Definition is_prime (n : Z) : bool :=
  (2 <=? n) && forallb (λ d, negb (n `mod` d =? 0)) (seqZ 2 (Z.sqrt n - 1)).

(** [strip fuel d n e]: divide [d] out of [n] as often as it goes. *)
Fixpoint strip (fuel : nat) (d n e : Z) : Z * Z :=
  match fuel with
  | O => (e, n)
  | S fuel' =>
      if n `mod` d =? 0 then strip fuel' d (n `div` d) (e + 1) else (e, n)
  end.

(** Trial division from [d] upwards. *)
Fixpoint factor_from (fuel : nat) (d n : Z) : list (Z * Z) :=
  match fuel with
  | O => if 1 <? n then [(n, 1)] else []
  | S fuel' =>
      if n <? d * d then (if 1 <? n then [(n, 1)] else [])
      else if n `mod` d =? 0 then
        let '(e, n') := strip (Z.to_nat (Z.log2 n)) d (n `div` d) 1 in
        (d, e) :: factor_from fuel' (d + 1) n'
      else factor_from fuel' (d + 1) n
  end.

(** Sage's [factor] on a non-zero integer returns its prime factorisation,
    primes ascending (the sign is a unit, not a factor); [factor(0)] raises
    [ArithmeticError]. *)
Definition factor (n : Z) : option (list (Z * Z)) :=
  if n =? 0 then None
  else Some (factor_from (Z.to_nat (Z.sqrt (Z.abs n))) 2 (Z.abs n)).

(** A general factorizer that gives up on every input: the direct stage
    fails and the later stages run. *)
Definition factor_unavailable (n : Z) : option (list (Z * Z)) := None.

(** The field [GF(q)] exists when [q] is a power of a prime. *)
Definition GF (q : Z) : bool :=
  match factor q with
  | Some [(_, _)] => true
  | _ => false
  end.

(** The cyclotomic polynomials of the window [m = 3..6]. *)
Definition cyclotomic_polynomial (m x : Z) : option Z :=
  if m =? 3 then Some (x * x + x + 1)
  else if m =? 4 then Some (x * x + 1)
  else if m =? 5 then Some (x * x * x * x + x * x * x + x * x + x + 1)
  else if m =? 6 then Some (x * x - x + 1)
  else None.

(** An integer is zero in [GF(q)] when the characteristic divides it. *)
Definition cyclotomic_vanishes (q m x : Z) : option bool :=
  match factor q with
  | Some [(char, _)] =>
      v ← cyclotomic_polynomial m x; Some (v `mod` char =? 0)
  | _ => None
  end.

(** sympy's [factorint(n).items()]: the prime powers of [|n|], preceded by
    [(-1, 1)] for a negative [n]; [factorint(0)] is [{0: 1}]. *)
Definition factorint (n : Z) : list (Z * Z) :=
  if n =? 0 then [(0, 1)]
  else (if n <? 0 then [(-1, 1)] else [])
       ++ factor_from (Z.to_nat (Z.sqrt (Z.abs n))) 2 (Z.abs n).

(** sympy's [GF(p)] is symmetric: a residue [a] of [0..p-1] reads as [a]
    when [a <= p // 2] and as [a - p] otherwise. *)
Definition to_int (p a : Z) : Z := if a <=? p `div` 2 then a else a - p.

(** The irreducible factors of [x^m - 1] over GF(p), highest degree first,
    in the order sympy lists them, for the fields and exponents the probe
    reaches on p = 5, 7 and 13; outside this table the stand-in raises.
    - GF(5): x^3 - 1 = (x + 4)(x^2 + x + 1),
             x^4 - 1 = (x + 1)(x + 2)(x + 3)(x + 4);
    - GF(7): x^3 - 1 = (x + 3)(x + 5)(x + 6);
    - GF(13): x^3 - 1 = (x + 4)(x + 10)(x + 12). *)
Definition residues (m p : Z) : option (list (list Z)) :=
  if (p =? 5) && (m =? 3) then Some [[1; 4]; [1; 1; 1]]
  else if (p =? 5) && (m =? 4) then Some [[1; 1]; [1; 2]; [1; 3]; [1; 4]]
  else if (p =? 7) && (m =? 3) then Some [[1; 3]; [1; 5]; [1; 6]]
  else if (p =? 13) && (m =? 3) then Some [[1; 4]; [1; 10]; [1; 12]]
  else None.

(** The coefficients as [int(c)] reads them: x^3 - 1 over GF(7) gives
    [1, 3], [1, -2] and [1, -1]. *)
Definition factor_list (m p : Z) : option (list (option (list Z))) :=
  fs ← residues m p;
  Some ((λ f : list Z, Some (to_int p <$> f)) <$> (fs : list (list Z))).

Definition factor_large_semiprime :=
  Orchestrator.factor_large_semiprime factor is_prime GF cyclotomic_vanishes.

(** The same pipeline when the general factorizer is of no help. *)
Definition factor_large_semiprime_fallback :=
  Orchestrator.factor_large_semiprime
    factor_unavailable is_prime GF cyclotomic_vanishes.

Definition laplacian_eigenfunction_approach :=
  Probe.laplacian_eigenfunction_approach factor_list.

Definition find_factors_using_finite_fields :=
  Probe.find_factors_using_finite_fields factor_list is_prime factorint.

End Reference.

(** * Specification vocabulary

    The predicates and reference functions the properties are stated with. *)

Module Spec.
Import Py Sieve Probe Orchestrator.

(** The two arrays keep the sizes they were allocated with. *)
Definition sized (max_idx_1 max_idx_5 : Z) (st : list bool * list bool) : Prop :=
  Z.of_nat (length st.1) = max_idx_1 + 1 ∧
  Z.of_nat (length st.2) = max_idx_5 + 1.

(** What the collecting loop appends. *)
Definition survivors (r : Z) (sieve : list bool) (idxs : list Z) : list Z :=
  (λ i, 6 * i + r) <$> filter (λ i, np_get sieve i = Some true) idxs.

Definition strictly_ascending (l : list Z) : Prop := StronglySorted Z.lt l.

(** The contract the specification gives for the sieve on bound [N]. *)
Definition claimed_output (N : Z) (l : list Z) : Prop :=
  Forall prime l ∧
  Forall (λ x, x ≤ N) l ∧
  Forall (λ x, x = 3 ∨ x `mod` 6 = 1 ∨ x `mod` 6 = 5) l ∧
  strictly_ascending l ∧ NoDup l.

(** What the sieve's indexing guarantees by itself. *)
Definition output_shape (N : Z) (l : list Z) : Prop :=
  Forall (λ x, x = 3 ∨ (7 ≤ x ≤ N ∧ (x `mod` 6 = 1 ∨ x `mod` 6 = 5))) l ∧
  strictly_ascending l ∧ NoDup l.

(** The sum of [c_i * p^(k+i)] over a coefficient list given low degree
    first. *)
Fixpoint weighted_sum (p : Z) (k : nat) (cs : list Z) : Z :=
  match cs with
  | [] => 0
  | c :: cs' => c * p ^ Z.of_nat k + weighted_sum p (S k) cs'
  end.

(** Horner form of the same value. *)
Definition horner (p : Z) (cs : list Z) : Z :=
  foldr (λ c acc, c + p * acc) 0 cs.




(** Every member is at least 2 and divides the target. *)
Definition divisors_of (n : Z) (fs : gset Z) : Prop :=
  ∀ x, x ∈ fs → 2 ≤ x ∧ (x | n).

(** The shape of an irreducible factor as sympy hands it over: monic, of
    degree at least 1, its other coefficients residues modulo [p], in the
    range [0, p) or in the symmetric one. *)
Definition monic_nonconstant (p : Z) (coeffs : list Z) : Prop :=
  ∃ rest, coeffs = 1 :: rest ∧ rest ≠ [] ∧
          Forall (λ c, - (p - 1) ≤ 2 * c) rest.

(** The product [verify_factorization] recomputes. *)
Definition product (l : list Z) : Z := foldr Z.mul 1 l.

(** No square other than 1 divides [n]. *)
Definition squarefree (n : Z) : Prop := ∀ d, 1 < d → ¬ (d * d | n).

(** [l] lists bases at least 2 with exponents at least 1 whose powers
    multiply to [n]. *)
Definition factorisation_of (n : Z) (l : list (Z * Z)) : Prop :=
  Forall (λ pe, 2 ≤ pe.1 ∧ 1 ≤ pe.2) l ∧
  n = foldr (λ pe acc, pe.1 ^ pe.2 * acc) 1 l.

(** What the orchestrator needs of the general factorizer: whenever it
    answers on a positive integer, the answer multiplies back to it. *)
Definition factor_sound (factor : Z → option (list (Z * Z))) : Prop :=
  ∀ m l, 0 < m → factor m = Some l → factorisation_of m l.

(** Every return of stages 2 to 4 goes through [split_off] on a positive
    divisor of [n]. *)
Definition split_result (factor : Z → option (list (Z * Z)))
    (is_prime : Z → bool) (n : Z) (fs : list Z) : Prop :=
  ∃ p, 0 < p ∧ n `mod` p = 0 ∧ split_off factor is_prime n p = Some fs.

(** Every member is a non-zero divisor of the target. *)
Definition nonzero_divisors (n : Z) (fs : gset Z) : Prop :=
  ∀ x, x ∈ fs → x ≠ 0 ∧ (x | n).

(** The exponents announced by the probe's "Over GF(q), m = ..." lines. *)
Definition announced (out : list msg) : list Z :=
  omap (λ line, match line with OverField _ m => Some m | _ => None end) out.

(** The bases [factorint] reports with a positive exponent. *)
Definition reported_bases (l : list (Z * Z)) : list Z :=
  (filter (λ pe, 0 < pe.2) l).*1.

End Spec.

(** * Properties *)

(** ** The sieve *)

Module SieveFacts.
Import Py Sieve Spec.

Lemma np_index_in_range (a : list bool) (j : Z) :
  0 ≤ j < Z.of_nat (length a) → np_index a j = Some (Z.to_nat j).
Proof.
  intros Hj. unfold np_index.
  destruct (0 <=? j) eqn:E1; [|lia].
  destruct (j <? Z.of_nat (length a)) eqn:E2; [|lia]. done.
Qed.

Lemma np_get_in_range (a : list bool) (j : Z) :
  0 ≤ j < Z.of_nat (length a) → np_get a j = a !! Z.to_nat j.
Proof. intros Hj. unfold np_get. by rewrite np_index_in_range. Qed.

Lemma np_get_is_Some (a : list bool) (j : Z) :
  0 ≤ j < Z.of_nat (length a) → is_Some (np_get a j).
Proof.
  intros Hj. rewrite np_get_in_range by done.
  apply lookup_lt_is_Some. lia.
Qed.

Lemma np_set_in_range (a : list bool) (j : Z) (v : bool) :
  0 ≤ j < Z.of_nat (length a) →
  ∃ a', np_set a j v = Some a' ∧ length a' = length a.
Proof.
  intros Hj. unfold np_set. rewrite np_index_in_range by done. simpl.
  eexists; split; [done|]. by rewrite length_insert.
Qed.

Lemma np_ones_length (n : Z) :
  0 ≤ n → ∃ a, np_ones n = Some a ∧ Z.of_nat (length a) = n.
Proof.
  intros Hn. unfold np_ones. destruct (n <? 0) eqn:E; [lia|].
  eexists; split; [done|]. rewrite length_replicate. lia.
Qed.

Lemma range_bounds (start stop j : Z) :
  j ∈ range start stop ↔ start ≤ j < stop.
Proof. unfold range. rewrite elem_of_seqZ. lia. Qed.

Lemma range3_bounds (start stop step j : Z) :
  0 < step → j ∈ range3 start stop step → start ≤ j < stop.
Proof.
  intros Hstep. unfold range3. rewrite list_elem_of_fmap.
  intros (t & -> & Ht). apply elem_of_seqZ in Ht.
  assert (step * ((stop - start + step - 1) `div` step)
          ≤ stop - start + step - 1) by (apply Z.mul_div_le; lia).
  nia.
Qed.

Lemma mark_in_range (js : list Z) (a : list bool) :
  Forall (λ j, 0 ≤ j < Z.of_nat (length a)) js →
  ∃ a', mark js a = Some a' ∧ length a' = length a.
Proof.
  revert a. induction js as [|j js IH]; intros a Hjs; simpl.
  - by eexists.
  - apply Forall_cons in Hjs as [Hj Hjs].
    destruct (np_set_in_range a j false Hj) as (a1 & -> & Hlen). simpl.
    destruct (IH a1) as (a' & Hm & Hlen').
    { by rewrite Hlen. }
    exists a'. split; [done|congruence].
Qed.

Lemma mark_range3 (start stop step : Z) (a : list bool) :
  0 < step → 0 ≤ start → stop ≤ Z.of_nat (length a) →
  ∃ a', mark (range3 start stop step) a = Some a' ∧ length a' = length a.
Proof.
  intros Hstep Hstart Hstop. apply mark_in_range, Forall_forall.
  intros j Hj. apply range3_bounds in Hj; lia.
Qed.

Lemma guarded_mark (start stop step : Z) (a : list bool) :
  0 < step → stop ≤ Z.of_nat (length a) →
  ∃ a', (if 0 <? start then mark (range3 start stop step) a else Some a)
        = Some a' ∧ length a' = length a.
Proof.
  intros Hstep Hstop. destruct (0 <? start) eqn:E.
  - apply mark_range3; lia.
  - by eexists.
Qed.

Lemma cross_out_1_sized (max_idx_1 max_idx_5 i : Z) st :
  1 ≤ i → sized max_idx_1 max_idx_5 st →
  ∃ st', cross_out_1 max_idx_1 max_idx_5 i st = Some st' ∧
         sized max_idx_1 max_idx_5 st'.
Proof.
  intros Hi [H1 H5]. unfold cross_out_1.
  destruct (mark_range3 (i + (6 * i + 1)) (max_idx_1 + 1) (6 * i + 1) st.1)
    as (a1 & -> & Hl1); [lia..|]. simpl.
  destruct (guarded_mark (((6 * i + 1) * 5 - 5) `div` 6) (max_idx_5 + 1)
              (6 * i + 1) st.2) as (a5 & -> & Hl5); [lia..|]. simpl.
  eexists; split; [done|]. split; simpl; congruence.
Qed.

Lemma cross_out_5_sized (max_idx_1 max_idx_5 i : Z) st :
  1 ≤ i → sized max_idx_1 max_idx_5 st →
  ∃ st', cross_out_5 max_idx_1 max_idx_5 i st = Some st' ∧
         sized max_idx_1 max_idx_5 st'.
Proof.
  intros Hi [H1 H5]. unfold cross_out_5.
  destruct (guarded_mark (((6 * i + 5) * 1 - 1) `div` 6) (max_idx_1 + 1)
              (6 * i + 5) st.1) as (a1 & -> & Hl1); [lia..|]. simpl.
  destruct (guarded_mark (((6 * i + 5) * 5 - 5) `div` 6) (max_idx_5 + 1)
              (6 * i + 5) st.2) as (a5 & -> & Hl5); [lia..|]. simpl.
  eexists; split; [done|]. split; simpl; congruence.
Qed.

Lemma sieve_step_sized (max_idx_1 max_idx_5 i : Z) st :
  1 ≤ i ≤ max_idx_1 → sized max_idx_1 max_idx_5 st →
  ∃ st', sieve_step max_idx_1 max_idx_5 i st = Some st' ∧
         sized max_idx_1 max_idx_5 st'.
Proof.
  intros Hi Hst. unfold sieve_step.
  destruct (np_get_is_Some st.1 i) as [b1 ->]; [destruct Hst; lia|]. simpl.
  assert (∃ st1, (if b1 then cross_out_1 max_idx_1 max_idx_5 i st else Some st)
                 = Some st1 ∧ sized max_idx_1 max_idx_5 st1)
    as (st1 & -> & Hst1).
  { destruct b1; [apply cross_out_1_sized; [lia|done]|by eexists]. }
  simpl.
  assert (∃ b5, (if i <=? max_idx_5 then np_get st1.2 i else Some false)
                = Some b5) as (b5 & ->).
  { destruct (i <=? max_idx_5) eqn:E; [|by eexists].
    destruct (np_get_is_Some st1.2 i) as [b ->]; [destruct Hst1; lia|].
    by eexists. }
  simpl. destruct b5; [apply cross_out_5_sized; [lia|done]|by eexists].
Qed.

Lemma sieve_loop_sized (max_idx_1 max_idx_5 : Z) (idxs : list Z) st :
  Forall (λ i, 1 ≤ i ≤ max_idx_1) idxs → sized max_idx_1 max_idx_5 st →
  ∃ st', sieve_loop max_idx_1 max_idx_5 idxs st = Some st' ∧
         sized max_idx_1 max_idx_5 st'.
Proof.
  revert st. induction idxs as [|i idxs IH]; intros st Hidx Hst; simpl.
  - by eexists.
  - apply Forall_cons in Hidx as [Hi Hidx].
    destruct (sieve_step_sized _ _ i st Hi Hst) as (st1 & -> & Hst1). simpl.
    by apply IH.
Qed.

(** The sieving indices stay inside the first array. *)
Lemma sieving_index_in_range (n i : Z) :
  0 ≤ n → 1 ≤ i ≤ Z.sqrt n `div` 6 → i ≤ (n - 1) `div` 6.
Proof.
  intros Hn [Hi1 Hi2].
  assert (6 * (Z.sqrt n `div` 6) ≤ Z.sqrt n) by (apply Z.mul_div_le; lia).
  pose proof (Z.sqrt_spec n Hn) as [Hs _].
  apply Z.div_le_lower_bound; [lia|]. nia.
Qed.

Lemma collect_survivors (r : Z) (sieve : list bool) (idxs acc : list Z) :
  Forall (λ i, 0 ≤ i < Z.of_nat (length sieve)) idxs →
  collect r sieve idxs acc = Some (acc ++ survivors r sieve idxs).
Proof.
  revert acc. induction idxs as [|i idxs IH]; intros acc Hidx; simpl.
  - by rewrite app_nil_r.
  - apply Forall_cons in Hidx as [Hi Hidx].
    destruct (np_get_is_Some sieve i Hi) as [b Hb]. rewrite Hb. simpl.
    rewrite IH by done. unfold survivors. rewrite filter_cons.
    destruct b.
    + rewrite decide_True by done. by rewrite fmap_cons, <- app_assoc.
    + rewrite decide_False by congruence. done.
Qed.

Lemma survivors_elem (r : Z) (sieve : list bool) (lo hi x : Z) :
  x ∈ survivors r sieve (range lo hi) → ∃ i, x = 6 * i + r ∧ lo ≤ i < hi.
Proof.
  unfold survivors. rewrite list_elem_of_fmap. intros (i & -> & Hi).
  apply list_elem_of_filter in Hi as [_ Hi]. apply range_bounds in Hi. eauto.
Qed.

Lemma survivors_NoDup (r : Z) (sieve : list bool) (lo hi : Z) :
  NoDup (survivors r sieve (range lo hi)).
Proof.
  unfold survivors. apply NoDup_fmap_2.
  - intros i j. lia.
  - apply NoDup_filter, NoDup_seqZ.
Qed.

End SieveFacts.

Module SieveSpec.
Import Py Sieve Spec SieveFacts.

Lemma sorted_NoDup_strict (l : list Z) :
  StronglySorted Z.le l → NoDup l → StronglySorted Z.lt l.
Proof.
  induction 1 as [|x l Hl IH Hx]; intros Hnd; constructor.
  - apply IH. by apply NoDup_cons in Hnd as [_ ?].
  - apply NoDup_cons in Hnd as [Hnotin _].
    apply Forall_forall. intros y Hy.
    assert (x ≤ y) by (by eapply Forall_forall in Hx).
    assert (x ≠ y) by (intros ->; done). lia.
Qed.

Lemma not_prime_25 : ¬ prime 25.
Proof.
  intros [_ Hrel]. destruct (Hrel 5) as [_ _ Hgcd]; [lia|].
  destruct (Hgcd 5) as [c Hc]; [by exists 1|by exists 5|]. lia.
Qed.

Lemma unsorted_shape (N : Z) (s1 s5 : list bool) :
  let l := [3] ++ survivors 1 s1 (range 1 ((N - 1) `div` 6 + 1)) in
  let l' := l ++ survivors 5 s5 (range 1 ((N - 5) `div` 6 + 1)) in
  Forall (λ x, x = 3 ∨ (7 ≤ x ≤ N ∧ (x `mod` 6 = 1 ∨ x `mod` 6 = 5))) l' ∧
  NoDup l'.
Proof.
  intros l l'.
  assert (H1 : ∀ x, x ∈ survivors 1 s1 (range 1 ((N - 1) `div` 6 + 1)) →
                    7 ≤ x ≤ N ∧ x `mod` 6 = 1).
  { intros x (i & -> & Hi)%survivors_elem.
    assert (6 * ((N - 1) `div` 6) ≤ N - 1) by (apply Z.mul_div_le; lia).
    split; [lia|]. rewrite Z.add_comm, Z.mul_comm, Z_mod_plus_full. done. }
  assert (H5 : ∀ x, x ∈ survivors 5 s5 (range 1 ((N - 5) `div` 6 + 1)) →
                    7 ≤ x ≤ N ∧ x `mod` 6 = 5).
  { intros x (i & -> & Hi)%survivors_elem.
    assert (6 * ((N - 5) `div` 6) ≤ N - 5) by (apply Z.mul_div_le; lia).
    split; [lia|]. rewrite Z.add_comm, Z.mul_comm, Z_mod_plus_full. done. }
  split.
  - subst l l'. rewrite !Forall_app, Forall_singleton.
    split; [split|]; [by left| |]; apply Forall_forall; intros x Hx; right.
    + apply H1 in Hx. tauto.
    + apply H5 in Hx. tauto.
  - subst l l'. rewrite <- app_assoc. apply NoDup_app. split; [|split].
    + apply NoDup_singleton.
    + intros x ->%list_elem_of_singleton [Hx|Hx]%elem_of_app.
      * apply H1 in Hx. lia.
      * apply H5 in Hx. lia.
    + apply NoDup_app. split; [apply survivors_NoDup|split].
      * intros x Hx1 Hx5. apply H1 in Hx1. apply H5 in Hx5. lia.
      * apply survivors_NoDup.
Qed.

(** C3.  On the bound 20 the sieve returns [3, 7, 11, 13, 17, 19]: the prime
    5, index 0 of the 6k+5 array, is skipped by the collecting loop, which
    starts at index 1.  The list of the specification, which contains 5, is
    not what the code returns. *)
Theorem generate_special_primes_20 :
  generate_special_primes 20 = Some [3; 7; 11; 13; 17; 19] ∧
  generate_special_primes 20 ≠ Some [3; 5; 7; 11; 13; 17; 19].
Proof. split; [by vm_compute|]. vm_compute. congruence. Qed.

(** C2.  The sieve does not return primes only: on the bound 25 it returns
    [3, 7, 11, 13, 17, 19, 23, 25], and 25 = 5 * 5 is not prime, so the
    contract of the specification fails there.  The sieving loop starts at
    index 1 of both arrays, so 5 (index 0 of the 6k+5 array) never crosses
    out its multiples. *)
Theorem generate_special_primes_25 :
  generate_special_primes 25 = Some [3; 7; 11; 13; 17; 19; 23; 25] ∧
  ¬ prime 25 ∧
  ¬ claimed_output 25 [3; 7; 11; 13; 17; 19; 23; 25].
Proof.
  split; [by vm_compute|]. split; [apply not_prime_25|].
  intros (Hpr & _). rewrite Forall_forall in Hpr.
  apply not_prime_25, Hpr. set_solver.
Qed.

(** On a bound below 3 the hard-coded 3 is returned all the same. *)
Lemma generate_special_primes_2 :
  generate_special_primes 2 = Some [3] ∧ ¬ claimed_output 2 [3].
Proof.
  split; [by vm_compute|].
  intros (_ & Hle & _). apply Forall_inv in Hle. lia.
Qed.

(** On the bound 100 the marks of p = 11 start at the wrong indices: the
    primes 7, 53 and 73 are crossed out, and the multiples of 5 stay. *)
Lemma generate_special_primes_100 :
  generate_special_primes 100
  = Some [3; 11; 13; 17; 19; 23; 25; 29; 31; 37; 41; 43; 47; 55; 59; 61; 65;
          67; 71; 79; 83; 85; 89; 95; 97].
Proof. by vm_compute. Qed.

(** For a bound [N >= 0] every array access of the sieve is in range, and
    the result is the sorted list of 3 and the survivors of the two arrays
    from index 1 on. *)
Lemma generate_special_primes_survivors (N : Z) :
  0 ≤ N →
  ∃ s1 s5, generate_special_primes N
           = Some (sorted (([3] ++ survivors 1 s1
                                     (range 1 ((N - 1) `div` 6 + 1)))
                           ++ survivors 5 s5
                                (range 1 ((N - 5) `div` 6 + 1)))).
Proof.
  intros HN. unfold generate_special_primes.
  assert (6 * ((N - 1) `div` 6) ≤ N - 1 < 6 * ((N - 1) `div` 6) + 6).
  { pose proof (Z.mul_div_le (N - 1) 6).
    pose proof (Z.mul_succ_div_gt (N - 1) 6). lia. }
  assert (6 * ((N - 5) `div` 6) ≤ N - 5 < 6 * ((N - 5) `div` 6) + 6).
  { pose proof (Z.mul_div_le (N - 5) 6).
    pose proof (Z.mul_succ_div_gt (N - 5) 6). lia. }
  destruct (np_ones_length ((N - 1) `div` 6 + 1)) as (a1 & -> & Ha1); [lia|].
  destruct (np_ones_length ((N - 5) `div` 6 + 1)) as (a5 & -> & Ha5); [lia|].
  simpl. unfold int_sqrt. destruct (N <? 0) eqn:E; [lia|]. simpl.
  destruct (sieve_loop_sized ((N - 1) `div` 6) ((N - 5) `div` 6)
              (range 1 (Z.sqrt N `div` 6 + 1)) (a1, a5))
    as ([s1 s5] & -> & [Hs1 Hs5]).
  { apply Forall_forall. intros i Hi%range_bounds.
    split; [lia|]. apply sieving_index_in_range; lia. }
  { done. }
  simpl in *.
  rewrite collect_survivors.
  2:{ apply Forall_forall. intros i Hi%range_bounds. lia. }
  simpl. rewrite collect_survivors.
  2:{ apply Forall_forall. intros i Hi%range_bounds. lia. }
  simpl. by exists s1, s5.
Qed.

Lemma generate_special_primes_negative (N : Z) :
  N < 0 → generate_special_primes N = None.
Proof.
  intros HN. unfold generate_special_primes, int_sqrt.
  destruct (np_ones ((N - 1) `div` 6 + 1)),
           (np_ones ((N - 5) `div` 6 + 1)); simpl; try done.
  destruct (N <? 0) eqn:E; simpl; [done|lia].
Qed.

(** X2.  What does hold for every bound [N >= 0]: the sieve returns a list;
    each element is the hard-coded 3 or a number at least 7, at most [N]
    and congruent to 1 or 5 modulo 6; the list is strictly ascending and has
    no duplicates. *)
Lemma generate_special_primes_shape (N : Z) :
  0 ≤ N → ∃ l, generate_special_primes N = Some l ∧ output_shape N l.
Proof.
  intros HN.
  destruct (generate_special_primes_survivors N HN) as (s1 & s5 & ->).
  eexists; split; [done|].
  destruct (unsorted_shape N s1 s5) as [Hall Hnd].
  unfold output_shape, sorted.
  rewrite <- (merge_sort_Permutation Z.le) in Hall, Hnd.
  split; [done|]. split; [|done].
  apply sorted_NoDup_strict; [|done].
  apply (StronglySorted_merge_sort Z.le).
Qed.

End SieveSpec.

(** ** The probe *)

Module ProbeFacts.
Import Py Probe Spec.

Lemma foldl_enumerate (p : Z) (cs : list Z) (k : nat) (acc : Z) :
  foldl (λ v ic, v + ic.2 * p ^ Z.of_nat ic.1) acc
        (imap (λ i c, ((k + i)%nat, c)) cs)
  = acc + weighted_sum p k cs.
Proof.
  revert k acc. induction cs as [|c cs IH]; intros k acc; simpl.
  - lia.
  - rewrite Nat.add_0_r.
    rewrite (imap_ext _ (λ i c, ((S k + i)%nat, c))).
    2:{ intros i x _. simpl. f_equal. lia. }
    rewrite IH. lia.
Qed.

Lemma factor_value_weighted_sum (p : Z) (coeffs : list Z) :
  factor_value p coeffs = weighted_sum p 0 (reverse coeffs).
Proof.
  unfold factor_value.
  change (imap pair (reverse coeffs))
    with (imap (λ i c, ((0 + i)%nat, c)) (reverse coeffs)).
  rewrite foldl_enumerate. lia.
Qed.

Lemma weighted_sum_horner (p : Z) (k : nat) (cs : list Z) :
  weighted_sum p k cs = p ^ Z.of_nat k * horner p cs.
Proof.
  revert k. induction cs as [|c cs IH]; intros k; simpl.
  - lia.
  - rewrite IH, Nat2Z.inj_succ, Z.pow_succ_r by lia. lia.
Qed.

(** *** The conversion limit *)

Lemma str_ok_spec (z : Z) :
  str_ok z = true ↔ Z.abs z < 10 ^ int_max_str_digits.
Proof. unfold str_ok. apply Z.ltb_lt. Qed.

(** The field-size limit of the probe is far below the conversion limit. *)
Lemma field_limit_short : 10 ^ 12 < 10 ^ int_max_str_digits.
Proof. apply Z.pow_lt_mono_r; unfold int_max_str_digits; lia. Qed.

Lemma str_ok_small (z : Z) : Z.abs z ≤ 10 ^ 12 → str_ok z = true.
Proof.
  intros Hz. apply str_ok_spec. pose proof field_limit_short. lia.
Qed.




Lemma forallb_str_ok (l : list Z) :
  forallb str_ok l = true
  ↔ Forall (λ x, Z.abs x < 10 ^ int_max_str_digits) l.
Proof.
  rewrite forallb_forall, Forall_forall. split; intros H x Hx.
  - apply str_ok_spec, H. by apply list_elem_of_In.
  - apply str_ok_spec, H. by apply list_elem_of_In.
Qed.

Lemma print_ints_ok (verbose : bool) (l : list Z) :
  verbose = false ∨ Forall (λ x, Z.abs x < 10 ^ int_max_str_digits) l →
  print_ints verbose l = Some ().
Proof.
  unfold print_ints. intros [->|Hl%forallb_str_ok]; [done|].
  rewrite Hl. by destruct verbose.
Qed.

(** *** Printing *)

(** [verbose] reaches the state through [say] only, which leaves the factor
    set and the ghost record alone. *)
Lemma factors_say verbose line s : factors (say verbose line s) = factors s.
Proof. by destruct verbose. Qed.

Lemma visited_say verbose line s : visited (say verbose line s) = visited s.
Proof. by destruct verbose. Qed.

Lemma print_Some verbose line s s' :
  print verbose line s = Some s' → s' = say verbose line s.
Proof. unfold print. destruct (_ && _); congruence. Qed.

Lemma print_ok verbose line s :
  verbose = false ∨ printable line = true →
  print verbose line s = Some (say verbose line s).
Proof.
  unfold print. intros [->| ->]; [done|]. by rewrite andb_false_r.
Qed.

Lemma factors_attempt verbose line s :
  factors (state (attempt (print verbose line s) s)) = factors s.
Proof.
  destruct (print verbose line s) as [s'|] eqn:E; [|done].
  apply print_Some in E as ->. apply factors_say.
Qed.

(** *** The factor loop *)

Lemma process_factor_grows p n verbose s fact :
  factors s ⊆ factors (process_factor p n verbose s fact).
Proof.
  unfold process_factor. destruct fact as [coeffs|].
  - destruct (negb _ && _); [|done]. destruct (decide _); [done|].
    destruct (print _ _ _) as [s'|] eqn:E.
    + apply print_Some in E as ->. simpl. rewrite factors_say.
      apply union_subseteq_r.
    + by rewrite factors_say.
  - by rewrite factors_say.
Qed.

Lemma foldl_process_factor_grows p n verbose fs s :
  factors s ⊆ factors (foldl (process_factor p n verbose) s fs).
Proof.
  revert s. induction fs as [|f fs IH]; intros s; simpl; [done|].
  etrans; [apply process_factor_grows|apply IH].
Qed.

Lemma visited_process_factor p n verbose s fact :
  visited (process_factor p n verbose s fact) = visited s.
Proof.
  unfold process_factor. destruct fact as [coeffs|].
  - destruct (negb _ && _); [|done].
    destruct (decide _); [done|].
    destruct (print _ _ _) as [s'|] eqn:E.
    + apply print_Some in E as ->. simpl. by rewrite visited_say.
    + by rewrite visited_say.
  - by rewrite visited_say.
Qed.

Lemma visited_foldl_process_factor p n verbose fs s :
  visited (foldl (process_factor p n verbose) s fs) = visited s.
Proof.
  revert s. induction fs as [|f fs IH]; intros s; simpl; [done|].
  by rewrite IH, visited_process_factor.
Qed.





Section WithFactorizer.
Variable factor_list : Z → Z → option (list (option (list Z))).

Local Abbreviation loop_body := (loop_body factor_list).
Local Abbreviation m_loop := (m_loop factor_list).
Local Abbreviation body := (body factor_list).
Local Abbreviation run := (run factor_list).

(** *** One pass of the exponent loop *)

(** When its two lines can be printed, a pass ends at the [break], at a
    [continue] or at its end. *)
Lemma loop_body_ok p q n verbose m s :
  verbose = false ∨ (num_str_ok q = true ∧ str_ok m = true) →
  let s1 := say verbose (OverField q m) (enter m s) in
  loop_body p q n verbose m s
  = match factor_list m p with
    | None => Continue (say verbose (ErrorFactoringPolynomial m) s1)
    | Some fs =>
        (if (m =? p) || num_mod_is_1 q m then Break else Continue)
          (foldl (process_factor p n verbose) s1 fs)
    end.
Proof.
  intros Hok s1. unfold loop_body.
  rewrite print_ok.
  2:{ destruct Hok as [->|[Hq Hm]]; [by left|right]. simpl.
      by rewrite Hq, Hm. }
  fold s1. destruct (factor_list m p) as [fs|].
  - by destruct (_ || _).
  - rewrite print_ok; [done|].
    destruct Hok as [->|[_ Hm]]; [by left|by right].
Qed.


(** A property of the factor set that every step of the factor loop keeps
    holds after a pass, after the loop and after the probe. *)
Lemma foldl_process_factor_invariant (P : gset Z → Prop) p n verbose fs s :
  (∀ fact s, fact ∈ fs →
     P (factors s) → P (factors (process_factor p n verbose s fact))) →
  P (factors s) → P (factors (foldl (process_factor p n verbose) s fs)).
Proof.
  revert s. induction fs as [|f fs IH]; intros s Hstep Hs; simpl; [done|].
  apply IH; [intros; apply Hstep; [by right|done]|].
  apply Hstep; [by left|done].
Qed.

Lemma loop_body_invariant (P : gset Z → Prop) p q n verbose m s :
  (∀ fs fact s, factor_list m p = Some fs → fact ∈ fs →
     P (factors s) → P (factors (process_factor p n verbose s fact))) →
  P (factors s) → P (factors (pass_state (loop_body p q n verbose m s))).
Proof.
  intros Hstep Hs. unfold Probe.loop_body.
  destruct (print verbose (OverField q m) (enter m s)) as [s1|] eqn:E1;
    [|done].
  apply print_Some in E1 as ->.
  destruct (factor_list m p) as [fs|] eqn:Hfl.
  - assert (P (factors (foldl (process_factor p n verbose)
                          (say verbose (OverField q m) (enter m s)) fs))).
    { apply foldl_process_factor_invariant; [by eauto|].
      by rewrite factors_say. }
    by destruct (_ || _).
  - destruct (print verbose (ErrorFactoringPolynomial m) _) as [s2|] eqn:E2.
    + apply print_Some in E2 as ->. simpl. by rewrite !factors_say.
    + simpl. by rewrite factors_say.
Qed.

Lemma m_loop_invariant (P : gset Z → Prop) p q n verbose ms s :
  (∀ m fs fact s, m ∈ ms → factor_list m p = Some fs → fact ∈ fs →
     P (factors s) → P (factors (process_factor p n verbose s fact))) →
  P (factors s) → P (factors (state (m_loop p q n verbose ms s))).
Proof.
  revert s. induction ms as [|m ms IH]; intros s Hstep Hs; simpl; [done|].
  assert (Hpass : P (factors (pass_state (loop_body p q n verbose m s)))).
  { apply loop_body_invariant; [|done].
    intros fs fact s0. apply Hstep. by left. }
  destruct (loop_body p q n verbose m s) as [s'|s'|s']; simpl in Hpass;
    [|done..].
  apply IH; [|done]. intros m' fs fact s0 Hm'. apply Hstep. by right.
Qed.

Lemma run_invariant (P : gset Z → Prop) p k n verbose s :
  (∀ m fs fact s, 3 ≤ m ≤ p → factor_list m p = Some fs → fact ∈ fs →
     P (factors s) → P (factors (process_factor p n verbose s fact))) →
  P ∅ → run (p, k, n, verbose) = Some s → P (factors s).
Proof.
  intros Hstep H0. unfold Probe.run.
  destruct (py_pow p k) as [q|]; [|done]. simpl.
  assert (Hbody : P (factors (state (body p q k n verbose)))).
  { unfold Probe.body. destruct (num_gt q (10 ^ 12));
      [by rewrite factors_attempt|].
    destruct (k =? 1); [|by rewrite factors_attempt].
    destruct (p <=? 0); [done|]. apply m_loop_invariant; [|done].
    intros m fs fact s0 Hm. apply Hstep. unfold range in Hm.
    apply elem_of_seqZ in Hm. lia. }
  destruct (body p q k n verbose) as [s0|s0]; simpl in Hbody.
  - by intros [= <-].
  - intros ->%print_Some. by rewrite factors_say.
Qed.


(** The lines of the loop the probe runs can always be printed: the field
    order and the exponents are at most [10**12]. *)
Lemma probe_loop_lines p :
  0 < p → p ^ 1 ≤ 10 ^ 12 →
  num_str_ok (PyInt (p ^ 1)) = true
  ∧ Forall (λ m, str_ok m = true) (range 3 (p + 1)).
Proof.
  rewrite Z.pow_1_r. intros Hp Hle. split.
  - apply str_ok_small. lia.
  - apply Forall_forall. intros m Hm. unfold range in Hm.
    apply elem_of_seqZ in Hm. apply str_ok_small. lia.
Qed.

(** *** Verbose against quiet *)





(** An extension degree sends a quiet probe, and a verbose one whose field
    order can be printed, to [return list(factors)] on the empty set. *)
Lemma extension_probe_is_empty (p k n : Z) (verbose : bool) :
  0 ≤ k → k ≠ 1 →
  verbose = false ∨ Z.abs (p ^ k) < 10 ^ int_max_str_digits →
  laplacian_eigenfunction_approach factor_list (p, k, n, verbose) = Some [].
Proof.
  intros Hk Hk1 Hprint.
  assert (Hq : verbose = false ∨ num_str_ok (PyInt (p ^ k)) = true).
  { destruct Hprint as [->|Hq]; [by left|right]. by apply str_ok_spec. }
  unfold laplacian_eigenfunction_approach, Probe.run, Probe.body, py_pow.
  destruct (0 <=? k) eqn:E; [|lia]. simpl.
  destruct (k =? 1) eqn:E1; [lia|].
  destruct (10 ^ 12 <? p ^ k).
  - rewrite print_ok by done. simpl. rewrite factors_say. simpl.
    by rewrite elements_empty.
  - destruct (print verbose (ExtensionNotImplemented k) init) as [s|] eqn:Ep.
    + apply print_Some in Ep as ->. simpl. rewrite factors_say. simpl.
      by rewrite elements_empty.
    + simpl. rewrite print_ok by done. simpl. rewrite factors_say. simpl.
      by rewrite elements_empty.
Qed.



End WithFactorizer.

(** C8.  The probe decodes the coefficients of a factor as base-[p] digits,
    low degree first: [all_coeffs()], which lists the highest degree first,
    is reversed and the coefficient of degree [i] is weighted by [p^i]; the
    coefficients [1, 2] (low first, so [all_coeffs() = [2, 1]]) in base 5
    decode to 1 + 2*5 = 11. *)
Theorem factor_value_base_p_low_first :
  (∀ (p : Z) (c : list Z),
     factor_value p (reverse c) = weighted_sum p 0 c) ∧
  (∀ p c0 c1 c2 : Z,
     factor_value p (reverse [c0; c1; c2]) = c0 + c1 * p + c2 * p ^ 2) ∧
  factor_value 5 (reverse [1; 2]) = 11.
Proof.
  split; [|split].
  - intros p c. by rewrite factor_value_weighted_sum, reverse_involutive.
  - intros p c0 c1 c2.
    rewrite factor_value_weighted_sum, reverse_involutive. simpl. lia.
  - reflexivity.
Qed.

End ProbeFacts.

(** *** The exponent loop *)

Module ProbeLoop.
Import Py Probe Spec ProbeFacts.


Lemma range_cons (lo hi : Z) : lo < hi → range lo hi = lo :: range (lo + 1) hi.
Proof.
  intros Hlt. unfold range. rewrite seqZ_cons by lia.
  f_equal. f_equal; lia.
Qed.


Section WithFactorizer.
Variable factor_list : Z → Z → option (list (option (list Z))).

Local Abbreviation loop_body := (loop_body factor_list).
Local Abbreviation m_loop := (m_loop factor_list).







End WithFactorizer.

End ProbeLoop.

(** *** The accumulated factor set *)

Module FactorSet.
Import Py Probe Spec ProbeFacts.

Lemma horner_monic_bound (p : Z) (lows : list Z) :
  3 ≤ p → Forall (λ c, - (p - 1) ≤ 2 * c) lows →
  p ^ Z.of_nat (length lows) + 1 ≤ 2 * horner p (lows ++ [1]).
Proof.
  intros Hp. induction 1 as [|c lows Hc Hlows IH].
  - simpl. lia.
  - change (horner p ((c :: lows) ++ [1]))
      with (c + p * horner p (lows ++ [1])).
    rewrite length_cons, Nat2Z.inj_succ, Z.pow_succ_r by lia. nia.
Qed.

Lemma factor_value_monic (p : Z) (coeffs : list Z) :
  3 ≤ p → monic_nonconstant p coeffs → 2 ≤ factor_value p coeffs.
Proof.
  intros Hp (rest & -> & Hne & Hrest).
  rewrite factor_value_weighted_sum, reverse_cons, weighted_sum_horner.
  pose proof (horner_monic_bound p (reverse rest) Hp) as Hb.
  rewrite length_reverse in Hb.
  assert (p ^ 1 ≤ p ^ Z.of_nat (length rest)).
  { apply Z.pow_le_mono_r; [lia|]. destruct rest; [done|simpl; lia]. }
  specialize (Hb ltac:(by apply Forall_reverse)).
  simpl (Z.of_nat 0). lia.
Qed.

Lemma divisors_of_empty n : divisors_of n ∅.
Proof. intros x Hx. set_solver. Qed.

Lemma divisors_of_union n (a b : gset Z) :
  divisors_of n a → divisors_of n b → divisors_of n (a ∪ b).
Proof. intros Ha Hb x [?|?]%elem_of_union; auto. Qed.

Section WithCollaborators.
Variable factor_list : Z → Z → option (list (option (list Z))).
Variable isprime : Z → bool.
Variable factorint : Z → list (Z * Z).

(** What the libraries promise. *)
Hypothesis factor_list_monic : ∀ m p fs coeffs,
  prime p → factor_list m p = Some fs → Some coeffs ∈ fs →
  monic_nonconstant p coeffs.
Hypothesis isprime_sound : ∀ x, isprime x = true → prime x.
Hypothesis factorint_divisors : ∀ n p e,
  0 < n → (p, e) ∈ factorint n → 2 ≤ p ∧ (p | n).

Lemma m_loop_grows p q n verbose ms s :
  factors s ⊆ factors (state (m_loop factor_list p q n verbose ms s)).
Proof.
  apply (m_loop_invariant factor_list (λ X, factors s ⊆ X)); [|done].
  intros ? ? fact s0 _ _ _ Hs0. etrans; [done|].
  apply process_factor_grows.
Qed.

Lemma process_factor_divisors p n verbose s fact :
  3 ≤ p → (∀ coeffs, fact = Some coeffs → monic_nonconstant p coeffs) →
  divisors_of n (factors s) →
  divisors_of n (factors (process_factor p n verbose s fact)).
Proof.
  intros Hp Hfact Hs. unfold process_factor. destruct fact as [coeffs|].
  - destruct (negb _ && _) eqn:Hguard; [|done].
    destruct (decide _); [done|].
    destruct (print _ _ _) as [s'|] eqn:E; [|by rewrite factors_say].
    apply print_Some in E as ->. simpl. rewrite factors_say.
    apply andb_true_iff in Hguard as [Hnz Hmod].
    apply negb_true_iff, Z.eqb_neq in Hnz. apply Z.eqb_eq in Hmod.
    apply divisors_of_union; [|done].
    intros x ->%elem_of_singleton. split.
    + apply factor_value_monic; auto.
    + by apply Z.mod_divide.
  - by rewrite factors_say.
Qed.

Lemma run_divisors p k n verbose s :
  prime p → run factor_list (p, k, n, verbose) = Some s →
  divisors_of n (factors s).
Proof.
  intros Hprime.
  apply (run_invariant factor_list (divisors_of n));
    [|apply divisors_of_empty].
  intros m fs fact s0 Hm Hfl Hin Hs0.
  apply process_factor_divisors; [lia| |done].
  intros coeffs ->. by eapply factor_list_monic.
Qed.

Lemma probe_result_divisors p k n verbose l :
  prime p →
  laplacian_eigenfunction_approach factor_list (p, k, n, verbose) = Some l →
  divisors_of n (list_to_set l).
Proof.
  intros Hprime. unfold laplacian_eigenfunction_approach.
  destruct (run factor_list (p, k, n, verbose)) as [s|] eqn:Hrun; [|done].
  simpl. intros [= <-] x Hx.
  apply elem_of_list_to_set, elem_of_elements in Hx.
  by eapply run_divisors.
Qed.

Lemma add_repeatedly_elem (x p : Z) (fs : gset Z) (ts : list Z) :
  x ∈ foldl (λ factors _, {[p]} ∪ factors) fs ts → x = p ∨ x ∈ fs.
Proof.
  revert fs. induction ts as [|t ts IH]; intros fs; simpl; [auto|].
  intros [->|Hx]%IH; [auto|].
  apply elem_of_union in Hx as [->%elem_of_singleton|Hx]; auto.
Qed.

Lemma initial_factors_divisors n :
  0 < n → divisors_of n (initial_factors isprime factorint n).
Proof.
  intros Hn. unfold initial_factors. destruct (isprime n) eqn:Hpr.
  - apply isprime_sound in Hpr as [Hgt _].
    intros x [->%elem_of_singleton|[]%not_elem_of_empty]%elem_of_union.
    split; [lia|done].
  - assert (Hgen : ∀ l acc, (∀ pe, pe ∈ l → pe ∈ factorint n) →
              divisors_of n acc →
              divisors_of n
                (foldl (λ factors pe,
                          foldl (λ factors _, {[pe.1]} ∪ factors) factors
                                (range 0 pe.2)) acc l)).
    { induction l as [|[p e] l IH]; intros acc Hl Hacc; simpl; [done|].
      apply IH; [intros pe Hpe; apply Hl; by right|].
      intros x [->|Hx]%add_repeatedly_elem; [|by apply Hacc].
      apply (factorint_divisors n p e Hn). apply Hl. by left. }
    apply Hgen; [done|apply divisors_of_empty].
Qed.

Lemma update_all_grows (fs : gset Z) (results : list (list Z)) :
  fs ⊆ foldl (λ factors result, factors ∪ list_to_set result) fs results.
Proof.
  revert fs. induction results as [|r rs IH]; intros fs; simpl; [done|].
  etrans; [|apply IH]. apply union_subseteq_l.
Qed.

Lemma update_all_divisors n (fs : gset Z) (results : list (list Z)) :
  divisors_of n fs →
  Forall (λ r, divisors_of n (list_to_set r)) results →
  divisors_of n
    (foldl (λ factors result, factors ∪ list_to_set result) fs results).
Proof.
  intros Hfs Hrs. revert fs Hfs.
  induction Hrs as [|r rs Hr Hrs IH]; intros fs Hfs; simpl; [done|].
  apply IH. by apply divisors_of_union.
Qed.

(** C6.  On a positive target [n] the factor sets only grow, and hold
    nothing but divisors of [n] that are at least 2: each step of the
    probe's loops ends with a superset of the set it was given, however it
    ends; a probe on a prime [p] ends with such divisors only; the driver's
    merged set contains its initial set and again consists of such divisors
    only. *)
Theorem factor_set_grows_by_divisors (n : Z) (max_power_list : list Z) :
  0 < n →
  (∀ p verbose s fact,
     factors s ⊆ factors (process_factor p n verbose s fact)) ∧
  (∀ p q verbose ms s,
     factors s ⊆ factors (state (m_loop factor_list p q n verbose ms s))) ∧
  (∀ p k verbose s,
     prime p → run factor_list (p, k, n, verbose) = Some s →
     divisors_of n (factors s)) ∧
  (∀ fs,
     merged_factors factor_list isprime factorint n max_power_list
     = Some fs →
     initial_factors isprime factorint n ⊆ fs ∧ divisors_of n fs).
Proof.
  intros Hn. split; [|split; [|split]].
  - intros. apply process_factor_grows.
  - intros. apply m_loop_grows.
  - intros p k verbose s. apply run_divisors.
  - intros fs. unfold merged_factors.
    destruct (mapM _ _) as [results|] eqn:Hmap; [|done].
    simpl. intros [= <-]. split; [apply update_all_grows|].
    apply update_all_divisors; [by apply initial_factors_divisors|].
    apply mapM_Some in Hmap. apply Forall_forall. intros r Hr.
    apply list_elem_of_lookup in Hr as [i Hi].
    destruct (Forall2_lookup_r _ _ _ _ _ Hmap Hi) as (arg & Harg & Hcall).
    apply list_elem_of_lookup_2 in Harg. unfold args_list in Harg.
    apply list_elem_of_bind in Harg as (p & Harg & Hp).
    apply list_elem_of_bind in Harg as (k & Harg & _).
    apply list_elem_of_singleton in Harg as ->.
    apply list_elem_of_filter in Hp as [[Hpr _] _].
    eapply probe_result_divisors; [|done]. by apply isprime_sound.
Qed.

End WithCollaborators.

End FactorSet.

(** ** The orchestrator and the product check *)

Module OrchestratorFacts.
Import Py Sieve Probe Orchestrator Spec SieveFacts SieveSpec.

Lemma foldl_mul (l : list Z) (acc : Z) :
  foldl (λ product factor, product * factor) acc l = acc * product l.
Proof.
  revert acc. induction l as [|x l IH]; intros acc; simpl.
  - lia.
  - rewrite IH. unfold product. simpl. lia.
Qed.

Lemma verify_factorization_product (n : Z) (l : list Z) :
  verify_factorization n l = true ↔ product l = n.
Proof.
  unfold verify_factorization. rewrite foldl_mul, Z.eqb_eq. lia.
Qed.

Lemma product_Permutation (l1 l2 : list Z) :
  l1 ≡ₚ l2 → product l1 = product l2.
Proof.
  unfold product.
  induction 1 as [|x l1 l2 _ IH|x y l|l1 l2 l3 _ IH1 _ IH2]; simpl; lia.
Qed.

Lemma product_sorted (l : list Z) : product (sorted l) = product l.
Proof. apply product_Permutation, merge_sort_Permutation. Qed.

Lemma powers_positive (l : list (Z * Z)) :
  Forall (λ pe, 2 ≤ pe.1 ∧ 1 ≤ pe.2) l →
  0 < foldr (λ pe acc, pe.1 ^ pe.2 * acc) 1 l.
Proof.
  induction 1 as [|[p e] l [Hp He] _ IH]; simpl in *; [lia|].
  assert (0 < p ^ e) by (apply Z.pow_pos_nonneg; lia). nia.
Qed.

Lemma squarefree_divisor (n m : Z) : squarefree n → (m | n) → squarefree m.
Proof.
  intros Hn Hm d Hd Hdd. apply (Hn d Hd). by etrans.
Qed.

Lemma squarefree_distinct_primes (n : Z) (l : list (Z * Z)) :
  squarefree n → factorisation_of n l → product (l.*1) = n.
Proof.
  intros Hsq [Hall ->]. induction Hall as [|[p e] l [Hp He] Hall IH].
  - done.
  - simpl in *. unfold product in *. simpl.
    assert (e = 1) as ->.
    { destruct (decide (e = 1)) as [|Hne]; [done|]. exfalso.
      apply (Hsq p); [lia|].
      replace e with (2 + (e - 2)) by lia.
      rewrite Z.pow_add_r, Z.pow_2_r by lia.
      exists (p ^ (e - 2) * foldr (λ pe acc, pe.1 ^ pe.2 * acc) 1 l). lia. }
    rewrite Z.pow_1_r. f_equal. apply IH.
    eapply squarefree_divisor; [apply Hsq|]. by apply Z.divide_factor_r.
Qed.

Lemma stride_subset (step skip : nat) (l : list Z) (x : Z) :
  x ∈ stride step skip l → x ∈ l.
Proof.
  revert skip. induction l as [|y l IH]; intros skip; simpl; [done|].
  destruct skip as [|skip].
  - intros [->|Hx%IH]%elem_of_cons; [by left|by right].
  - intros Hx%IH. by right.
Qed.

Lemma slice_subset (l : list Z) (a b x : Z) : x ∈ slice l a b → x ∈ l.
Proof.
  unfold slice. intros Hx.
  eapply subseteq_drop, subseteq_take, Hx.
Qed.

Lemma generate_special_primes_positive (N : Z) (l : list Z) :
  generate_special_primes N = Some l → Forall (λ p, 0 < p) l.
Proof.
  intros Hgen. destruct (decide (0 ≤ N)) as [HN|HN].
  - destruct (generate_special_primes_survivors N HN) as (s1 & s5 & Hl).
    assert (l = sorted (([3] ++ survivors 1 s1
                                  (range 1 ((N - 1) `div` 6 + 1)))
                        ++ survivors 5 s5 (range 1 ((N - 5) `div` 6 + 1))))
      as -> by congruence.
    destruct (unsorted_shape N s1 s5) as [Hall _].
    unfold sorted. rewrite merge_sort_Permutation.
    eapply Forall_impl; [apply Hall|]. simpl. intros x. lia.
  - rewrite generate_special_primes_negative in Hgen by lia. done.
Qed.

Section WithCollaborators.
Variable factor : Z → option (list (Z * Z)).
Variable is_prime : Z → bool.
Variable GF : Z → bool.
Variable cyclotomic_vanishes : Z → Z → Z → option bool.

Local Abbreviation split_off := (split_off factor is_prime).
Local Abbreviation trial_division := (trial_division factor is_prime).
Local Abbreviation split_result := (split_result factor is_prime).
Local Abbreviation orchestrate :=
  (factor_large_semiprime factor is_prime GF cyclotomic_vanishes).

Lemma foldl_append_bases (acc : list Z) (sub : list (Z * Z)) :
  foldl (λ result fe, result ++ [fe.1]) acc sub = acc ++ sub.*1.
Proof.
  revert acc. induction sub as [|fe sub IH]; intros acc; simpl.
  - by rewrite app_nil_r.
  - by rewrite IH, <- app_assoc.
Qed.

Lemma trial_division_split (n : Z) (ps fs : list Z) :
  Forall (λ p, 0 < p) ps →
  trial_division n ps = Some (Some fs) → split_result n fs.
Proof.
  induction 1 as [|p ps Hp _ IH]; simpl; [done|].
  destruct (n `mod` p =? 0) eqn:E; [|done].
  destruct (split_off n p) as [fs'|] eqn:Hs; [|done]. simpl.
  intros [= <-]. exists p. split; [done|]. split; [lia|done].
Qed.

Lemma batch_loop_split (n : Z) (sp idxs fs : list Z) :
  Forall (λ p, 0 < p) sp →
  batch_loop factor is_prime n sp idxs = Some (Some fs) →
  split_result n fs.
Proof.
  intros Hsp. induction idxs as [|i idxs IH]; simpl; [done|].
  destruct (trial_division n _) as [[fs'|]|] eqn:Ht; simpl; [|done..].
  intros [= <-]. eapply trial_division_split; [|done].
  apply Forall_forall. intros x Hx%slice_subset.
  by eapply Forall_forall in Hsp.
Qed.

Lemma cyclotomic_m_loop_split (n p q : Z) (ms fs : list Z) :
  0 < p →
  cyclotomic_m_loop factor is_prime cyclotomic_vanishes n p q ms = Some fs →
  split_result n fs.
Proof.
  intros Hp. induction ms as [|m ms IH]; simpl; [done|].
  destruct (cyclotomic_try _ _ _ n p q m) as [fs'|] eqn:Ht; [|done].
  intros [= <-]. unfold cyclotomic_try in Ht.
  destruct (cyclotomic_vanishes q m _) as [[|]|]; [|done..].
  destruct (n `mod` p =? 0) eqn:E; [|done].
  exists p. split; [done|]. split; [lia|done].
Qed.

Lemma power_loop_split (n p : Z) (ks fs : list Z) :
  0 < p →
  power_loop factor is_prime GF cyclotomic_vanishes n p ks = Some fs →
  split_result n fs.
Proof.
  intros Hp. induction ks as [|k ks IH]; [done|]. cbn [power_loop].
  destruct (10 ^ 6 <? p ^ k); [done|]. destruct (negb _); [done|].
  destruct (cyclotomic_m_loop _ _ _ n p (p ^ k) _) as [fs'|] eqn:Hm;
    [|done].
  intros [= <-]. by eapply cyclotomic_m_loop_split.
Qed.

Lemma selected_loop_split (n max_attempts : Z) (sel fs : list Z) :
  Forall (λ p, 0 < p) sel →
  selected_loop factor is_prime GF cyclotomic_vanishes n max_attempts sel
  = Some fs →
  split_result n fs.
Proof.
  induction 1 as [|p sel Hp _ IH]; simpl; [done|].
  destruct (power_loop _ _ _ _ n p _) as [fs'|] eqn:Hk; [|done].
  intros [= <-]. by eapply power_loop_split.
Qed.

(** The returns of the orchestrator, stage by stage. *)
Lemma orchestrate_cases (n max_prime max_attempts : Z) st fs :
  orchestrate n max_prime max_attempts = Some (st, fs) →
  (st = Direct ∧ ∃ l, factor n = Some l ∧ fs = l.*1) ∨
  (st ≠ Direct ∧ st ≠ Exhausted ∧ factor n = None ∧ split_result n fs) ∨
  (st = Exhausted ∧ factor n = None ∧ fs = []).
Proof.
  unfold factor_large_semiprime.
  destruct (factor n) as [l|] eqn:Hf.
  { intros [= <- <-]. left. eauto. }
  destruct (trial_division n small_primes) as [[fs2|]|] eqn:H2;
    simpl; [| |done].
  { intros [= <- <-]. right; left. repeat split; try done.
    eapply trial_division_split; [|done].
    unfold small_primes. repeat constructor. }
  unfold special_stages.
  destruct (int_sqrt n) as [root|]; [|done]. simpl.
  destruct (generate_special_primes _) as [sp|] eqn:Hsp; [|done]. simpl.
  apply generate_special_primes_positive in Hsp.
  destruct (batch_loop _ _ n sp _) as [[fs3|]|] eqn:H3; simpl; [| |done].
  { intros [= <- <-]. right; left. repeat split; try done.
    by eapply batch_loop_split. }
  destruct (selected_loop _ _ _ _ n max_attempts _) as [fs4|] eqn:H4.
  { intros [= <- <-]. right; left. repeat split; try done.
    eapply selected_loop_split; [|done].
    apply Forall_forall. intros x Hx%stride_subset.
    by eapply Forall_forall in Hsp. }
  intros [= <- <-]. right; right. done.
Qed.

Lemma split_result_product (n : Z) (fs : list Z) :
  factor_sound factor → 0 < n → squarefree n →
  split_result n fs → product fs = n.
Proof.
  intros Hsound Hn Hsq (p & Hp & Hmod & Hsplit).
  assert (Hdiv : n = p * (n `div` p)) by (apply Z_div_exact_full_2; lia).
  unfold Orchestrator.split_off in Hsplit.
  destruct (is_prime _).
  - injection Hsplit as <-. unfold product. simpl. lia.
  - destruct (factor (n `div` p)) as [sub|] eqn:Hsub; [|done].
    simpl in Hsplit. injection Hsplit as <-.
    rewrite product_sorted, foldl_append_bases.
    change ([p] ++ sub.*1) with (p :: sub.*1).
    unfold product. simpl. fold (product sub.*1).
    rewrite (squarefree_distinct_primes (n `div` p)); [lia| |].
    + eapply squarefree_divisor; [apply Hsq|].
      exists p. lia.
    + apply Hsound; [nia|done].
Qed.

(** C1 (amended).  For every positive squarefree Target (no prime factor
    repeated, as in a semiprime with two distinct primes) and a general
    factorizer whose answers multiply back to their input: whenever the
    orchestrator returns a nonempty list, the product check of that list
    against Target succeeds. *)
Theorem squarefree_result_verifies (n max_prime max_attempts : Z) st fs :
  factor_sound factor → 0 < n → squarefree n →
  orchestrate n max_prime max_attempts = Some (st, fs) →
  fs ≠ [] →
  verify_factorization n fs = true.
Proof.
  intros Hsound Hn Hsq Hrun Hne. apply verify_factorization_product.
  apply orchestrate_cases in Hrun
    as [(_ & l & Hl & ->)|[(_ & _ & _ & Hsplit)|(_ & _ & ->)]].
  - apply squarefree_distinct_primes; [done|]. by apply Hsound.
  - by apply split_result_product.
  - done.
Qed.

(** C4 (amended).  For Target 303 = 3 * 101 the orchestrator returns
    [3, 101]: from stage 2 (3 found in the small-prime list, the cofactor
    101 confirmed prime) when the direct stage has failed on 303, and from
    stage 1 when the general factorizer answers with 3 * 101. *)
Theorem target_303 (max_prime max_attempts : Z) :
  is_prime 101 = true →
  (factor 303 = None →
   orchestrate 303 max_prime max_attempts = Some (SmallPrime, [3; 101])) ∧
  (factor 303 = Some [(3, 1); (101, 1)] →
   orchestrate 303 max_prime max_attempts = Some (Direct, [3; 101])).
Proof.
  intros Hprime. unfold factor_large_semiprime. split; intros ->.
  - unfold small_primes. simpl. unfold Orchestrator.split_off.
    change (303 `div` 3) with 101. by rewrite Hprime.
  - done.
Qed.

(** C9.  On the empty list [verify_factorization] answers [True] exactly
    when the number is 1; so the empty list of the orchestrator's terminal
    failure never verifies against a Target greater than 1. *)
Theorem empty_list_verifies_only_1 :
  (∀ number, verify_factorization number [] = true ↔ number = 1) ∧
  (∀ n max_prime max_attempts fs,
     1 < n →
     orchestrate n max_prime max_attempts = Some (Exhausted, fs) →
     fs = [] ∧ verify_factorization n fs = false).
Proof.
  split.
  - intros number. rewrite verify_factorization_product. done.
  - intros n max_prime max_attempts fs Hn Hrun.
    apply orchestrate_cases in Hrun
      as [(? & _)|[(_ & ? & _)|(_ & _ & ->)]]; [done..|].
    split; [done|]. apply not_true_is_false.
    rewrite verify_factorization_product. unfold product. simpl. lia.
Qed.

End WithCollaborators.

End OrchestratorFacts.

(** ** The reference collaborators keep their contracts *)

Module ReferenceFacts.
Import Py Probe Orchestrator Spec OrchestratorFacts FactorSet.

Lemma strip_spec (fuel : nat) (d n e : Z) :
  2 ≤ d → 1 ≤ n → 1 ≤ e →
  1 ≤ (Reference.strip fuel d n e).1 ∧
  1 ≤ (Reference.strip fuel d n e).2 ∧
  d ^ (Reference.strip fuel d n e).1 * (Reference.strip fuel d n e).2
  = d ^ e * n.
Proof.
  intros Hd. revert n e. induction fuel as [|fuel IH]; intros n e Hn He.
  - simpl. lia.
  - simpl. destruct (n `mod` d =? 0) eqn:Hmod; [|simpl; lia].
    apply Z.eqb_eq in Hmod.
    assert (Hdiv : n = d * (n `div` d)) by (apply Z_div_exact_full_2; lia).
    destruct (IH (n `div` d) (e + 1)) as (H1 & H2 & H3); [nia|lia|].
    split; [done|]. split; [done|].
    rewrite H3, Z.pow_add_r, Z.pow_1_r by lia. lia.
Qed.

Lemma remainder_factorisation (n : Z) :
  1 ≤ n → factorisation_of n (if 1 <? n then [(n, 1)] else []).
Proof.
  intros Hn. destruct (1 <? n) eqn:E.
  - split; [repeat constructor; simpl; lia|]. simpl. lia.
  - split; [constructor|]. simpl. lia.
Qed.

Lemma factor_from_spec (fuel : nat) (d n : Z) :
  2 ≤ d → 1 ≤ n → factorisation_of n (Reference.factor_from fuel d n).
Proof.
  revert d n. induction fuel as [|fuel IH]; intros d n Hd Hn; simpl.
  - by apply remainder_factorisation.
  - destruct (n <? d * d); [by apply remainder_factorisation|].
    destruct (n `mod` d =? 0) eqn:Hmod; [|apply IH; lia].
    apply Z.eqb_eq in Hmod.
    assert (Hdiv : n = d * (n `div` d)) by (apply Z_div_exact_full_2; lia).
    pose proof (strip_spec (Z.to_nat (Z.log2 n)) d (n `div` d) 1 Hd)
      as (H1 & H2 & H3); [nia|lia|].
    destruct (Reference.strip _ d (n `div` d) 1) as [e n'].
    simpl in H1, H2, H3.
    destruct (IH (d + 1) n') as [Hall Hprod]; [lia|lia|].
    split; [constructor; [simpl; lia|done]|].
    simpl. rewrite <- Hprod, H3. lia.
Qed.

Lemma reference_factor_sound : factor_sound Reference.factor.
Proof.
  intros m l Hm. unfold Reference.factor.
  destruct (m =? 0) eqn:E; [lia|]. intros [= <-].
  rewrite Z.abs_eq by lia. apply factor_from_spec; lia.
Qed.

Lemma factor_unavailable_sound : factor_sound Reference.factor_unavailable.
Proof. intros m l _. done. Qed.

Lemma factorisation_bases_divide (n : Z) (l : list (Z * Z)) (p e : Z) :
  factorisation_of n l → (p, e) ∈ l → 2 ≤ p ∧ (p | n).
Proof.
  intros [Hall ->] Hin. induction Hall as [|[p' e'] l [Hp He] Hall IH].
  - by apply not_elem_of_nil in Hin.
  - simpl in *. apply elem_of_cons in Hin as [[= -> ->]|Hin].
    + split; [done|]. apply Z.divide_mul_l.
      exists (p' ^ (e' - 1)).
      replace e' with (Z.succ (e' - 1)) at 1 by lia.
      rewrite Z.pow_succ_r by lia. lia.
    + destruct (IH Hin) as [? ?]. split; [done|]. by apply Z.divide_mul_r.
Qed.

Lemma reference_factorint_divisors (n p e : Z) :
  0 < n → (p, e) ∈ Reference.factorint n → 2 ≤ p ∧ (p | n).
Proof.
  intros Hn. unfold Reference.factorint.
  destruct (n =? 0) eqn:E0; [lia|]. destruct (n <? 0) eqn:E1; [lia|].
  simpl. rewrite Z.abs_eq by lia.
  apply factorisation_bases_divide, factor_from_spec; lia.
Qed.

Lemma no_small_divisor (n d : Z) :
  Reference.is_prime n = true → 2 ≤ d → d * d ≤ n → ¬ (d | n).
Proof.
  unfold Reference.is_prime. intros [Hn Hall]%andb_true_iff Hd Hdd Hdiv.
  rewrite forallb_forall in Hall.
  assert (Hs : d ≤ Z.sqrt n) by (apply Z.sqrt_le_square; lia).
  specialize (Hall d). rewrite <- list_elem_of_In, elem_of_seqZ in Hall.
  specialize (Hall ltac:(lia)).
  apply negb_true_iff, Z.eqb_neq in Hall.
  apply Hall, Z.mod_divide; [lia|done].
Qed.

Lemma reference_is_prime_sound (n : Z) : Reference.is_prime n = true → prime n.
Proof.
  intros Hpr.
  assert (Hn : 2 ≤ n).
  { unfold Reference.is_prime in Hpr.
    apply andb_true_iff in Hpr as [?%Z.leb_le _]. done. }
  apply prime_intro; [lia|]. intros a Ha.
  cut (Z.gcd a n = 1).
  { intros Hg. constructor; [apply Z.divide_1_l..|].
    intros x Hxa Hxn. rewrite <- Hg. by apply Z.gcd_greatest. }
  pose proof (Z.gcd_nonneg a n) as Hg0.
  pose proof (Z.gcd_divide_l a n) as Hga.
  pose proof (Z.gcd_divide_r a n) as [c Hc].
  assert (Hgle : Z.gcd a n ≤ a) by (apply Z.divide_pos_le; [lia|done]).
  assert (Hgne : Z.gcd a n ≠ 0) by (intros H0; rewrite H0 in Hc; lia).
  destruct (decide (Z.gcd a n = 1)) as [|Hne]; [done|]. exfalso.
  assert (Hc2 : 2 ≤ c) by nia.
  destruct (decide (Z.gcd a n ≤ c)) as [Hle|Hgt].
  - apply (no_small_divisor n (Z.gcd a n) Hpr); [lia|nia|].
    exists c. lia.
  - apply (no_small_divisor n c Hpr); [lia|nia|].
    exists (Z.gcd a n). lia.
Qed.

Lemma reference_factor_list_monic (m p : Z) fs coeffs :
  prime p → Reference.factor_list m p = Some fs → Some coeffs ∈ fs →
  monic_nonconstant p coeffs.
Proof.
  intros _. unfold Reference.factor_list, Reference.residues.
  intros Hfs Hin.
  repeat (let E := fresh "E" in
          destruct (_ && _) eqn:E in Hfs;
          [apply andb_true_iff in E as [->%Z.eqb_eq ->%Z.eqb_eq];
           vm_compute in Hfs; injection Hfs as <-;
           repeat (apply elem_of_cons in Hin as [Hin|Hin];
                   [simplify_eq; eexists; split; [done|]; split; [done|];
                    repeat constructor; lia|]);
           by apply not_elem_of_nil in Hin|]).
  done.
Qed.

(** A bounded check of squarefreeness. *)
Lemma squarefree_check (n : Z) :
  0 < n →
  forallb (λ d, negb (n `mod` (d * d) =? 0)) (seqZ 2 (Z.sqrt n - 1)) = true →
  squarefree n.
Proof.
  intros Hn Hall d Hd Hdiv. rewrite forallb_forall in Hall.
  assert (d * d ≤ n) by (apply Z.divide_pos_le; [lia|done]).
  assert (d ≤ Z.sqrt n) by (apply Z.sqrt_le_square; lia).
  specialize (Hall d). rewrite <- list_elem_of_In, elem_of_seqZ in Hall.
  specialize (Hall ltac:(lia)).
  apply negb_true_iff, Z.eqb_neq in Hall.
  apply Hall, Z.mod_divide; [nia|done].
Qed.

End ReferenceFacts.

(** ** The pipeline on concrete targets *)

Module Examples.
Import Py Probe Orchestrator Spec OrchestratorFacts FactorSet ProbeLoop.

(** The probe on GF(7) against 90: x^3 - 1 splits into x + 3, x - 2 and
    x - 1, which decode to 10, 5 and 6. *)
Lemma probe_7_90 :
  Reference.laplacian_eigenfunction_approach (7, 1, 90, false)
  = Some [5; 10; 6].
Proof. by vm_compute. Qed.

(** The probe records any divisor it decodes, prime or not: on GF(5)
    against 24 it finds 4, 6 and 3. *)
Lemma probe_5_24 :
  Reference.laplacian_eigenfunction_approach (5, 1, 24, false)
  = Some [3; 6; 4].
Proof. by vm_compute. Qed.

Lemma find_factors_70 :
  Reference.find_factors_using_finite_fields 70 [1; 2] true
  = Some [2; 5; 7; 10].
Proof. by vm_compute. Qed.

(** The orchestrator drops the multiplicity of a repeated prime: on the
    semiprime 9 = 3 * 3 it returns the nonempty list [3], whose product is
    not 9. *)
Lemma repeated_prime_fails_verification :
  Reference.factor_large_semiprime 9 10000 3 = Some (Direct, [3]) ∧
  [3] ≠ @nil Z ∧
  verify_factorization 9 [3] = false.
Proof. split; [by vm_compute|]. split; [done|by vm_compute]. Qed.

Lemma squarefree_result_verifies_witness :
  (squarefree 15 ∧
   Reference.factor_large_semiprime 15 10000 3 = Some (Direct, [3; 5]) ∧
   verify_factorization 15 [3; 5] = true) ∧
  (squarefree 5183 ∧
   Reference.factor_large_semiprime_fallback 5183 10000 3
   = Some (SpecialPrime, [71; 73]) ∧
   verify_factorization 5183 [71; 73] = true).
Proof.
  assert (H15 : squarefree 15)
    by (apply ReferenceFacts.squarefree_check; [lia|by vm_compute]).
  assert (H5183 : squarefree 5183)
    by (apply ReferenceFacts.squarefree_check; [lia|by vm_compute]).
  assert (R15 : Reference.factor_large_semiprime 15 10000 3
                = Some (Direct, [3; 5])) by (by vm_compute).
  assert (R5183 : Reference.factor_large_semiprime_fallback 5183 10000 3
                  = Some (SpecialPrime, [71; 73])) by (by vm_compute).
  split; (split; [done|]; split; [done|]).
  - apply (squarefree_result_verifies Reference.factor Reference.is_prime
             Reference.GF Reference.cyclotomic_vanishes
             15 10000 3 Direct [3; 5]);
      [apply ReferenceFacts.reference_factor_sound|lia|done|done|done].
  - apply (squarefree_result_verifies Reference.factor_unavailable
             Reference.is_prime Reference.GF Reference.cyclotomic_vanishes
             5183 10000 3 SpecialPrime [71; 73]);
      [apply ReferenceFacts.factor_unavailable_sound|lia|done|done|done].
Defined.

(** With a general factorizer that answers on 303, as Sage's does, the
    orchestrator returns from stage 1, not from stage 2. *)
Lemma target_303_returns_from_direct_stage :
  Reference.factor_large_semiprime 303 10000 3 = Some (Direct, [3; 101]) ∧
  Reference.factor_large_semiprime 303 10000 3
  ≠ Some (SmallPrime, [3; 101]).
Proof. split; [by vm_compute|]. vm_compute. congruence. Qed.

Lemma target_303_witness :
  Reference.factor_large_semiprime_fallback 303 10000 3
  = Some (SmallPrime, [3; 101]) ∧
  Reference.factor_large_semiprime 303 10000 3 = Some (Direct, [3; 101]).
Proof.
  split.
  - apply (target_303 Reference.factor_unavailable Reference.is_prime
             Reference.GF Reference.cyclotomic_vanishes 10000 3);
      [by vm_compute|done].
  - apply (target_303 Reference.factor Reference.is_prime
             Reference.GF Reference.cyclotomic_vanishes 10000 3);
      by vm_compute.
Defined.






Lemma factor_set_grows_by_divisors_witness :
  ∃ fs,
    merged_factors Reference.factor_list Reference.is_prime
                   Reference.factorint 70 [1; 2] = Some fs ∧
    initial_factors Reference.is_prime Reference.factorint 70 ⊆ fs ∧
    divisors_of 70 fs.
Proof.
  destruct (merged_factors Reference.factor_list Reference.is_prime
              Reference.factorint 70 [1; 2]) as [fs|] eqn:Hrun.
  - exists fs. split; [done|].
    apply (factor_set_grows_by_divisors
             Reference.factor_list Reference.is_prime Reference.factorint
             ReferenceFacts.reference_factor_list_monic
             ReferenceFacts.reference_is_prime_sound
             ReferenceFacts.reference_factorint_divisors 70 [1; 2]); [lia|done].
  - vm_compute in Hrun. discriminate Hrun.
Defined.


Lemma empty_list_verifies_only_1_witness :
  Reference.factor_large_semiprime_fallback 5329 10000 3
  = Some (Exhausted, []) ∧
  verify_factorization 5329 [] = false.
Proof.
  assert (R : Reference.factor_large_semiprime_fallback 5329 10000 3
              = Some (Exhausted, [])) by (by vm_compute).
  split; [done|].
  pose proof (empty_list_verifies_only_1 Reference.factor_unavailable
                Reference.is_prime Reference.GF
                Reference.cyclotomic_vanishes) as [_ Hfail].
  apply (Hfail 5329 10000 3 []); [lia|done].
Defined.

End Examples.

(** * Further properties of the sources *)

(** ** The sieve: when it returns, and what its marks hit *)

Module SieveMore.
Import Py Sieve Spec SieveFacts SieveSpec.

Lemma div_6 (a q r : Z) : 0 ≤ r < 6 → a = 6 * q + r → a `div` 6 = q.
Proof. intros Hr Ha. symmetry. apply (Z.div_unique a 6 q r); lia. Qed.

Lemma range3_elem (start stop step j : Z) :
  0 < step → j ∈ range3 start stop step →
  ∃ t, 0 ≤ t ∧ j = start + t * step ∧ j < stop.
Proof.
  intros Hstep Hj. pose proof (range3_bounds _ _ _ _ Hstep Hj) as Hb.
  unfold range3 in Hj. apply list_elem_of_fmap in Hj as (t & -> & Ht).
  apply elem_of_seqZ in Ht. exists t. lia.
Qed.

(** A store leaves the other entries alone. *)
Lemma np_set_lookup (a a' : list bool) (j : Z) (k : nat) :
  0 ≤ j → np_set a j false = Some a' →
  a' !! k = Some true → a !! k = Some true ∧ Z.of_nat k ≠ j.
Proof.
  intros Hj. unfold np_set, np_index.
  destruct ((0 <=? j) && (j <? Z.of_nat (length a))) eqn:E1; simpl.
  - intros [= <-] Hk. destruct (decide (k = Z.to_nat j)) as [->|Hne].
    + rewrite list_lookup_insert_eq in Hk by lia. done.
    + rewrite list_lookup_insert_ne in Hk by done. split; [done|lia].
  - destruct ((j <? 0) && (0 <=? Z.of_nat (length a) + j)) eqn:E2;
      simpl; [lia|done].
Qed.

(** Marking only clears entries, and only at the listed indices. *)
Lemma mark_lookup (js : list Z) (a a' : list bool) (k : nat) :
  Forall (λ j, 0 ≤ j) js → mark js a = Some a' →
  a' !! k = Some true → a !! k = Some true ∧ Z.of_nat k ∉ js.
Proof.
  intros Hjs. revert a. induction Hjs as [|j js Hj Hjs IH]; intros a; simpl.
  - intros [= <-] Hk. split; [done|]. apply not_elem_of_nil.
  - destruct (np_set a j false) as [a1|] eqn:Hset; [|done]. simpl.
    intros Hm Hk. destruct (IH a1 Hm Hk) as [Hk1 Hnotin].
    destruct (np_set_lookup a a1 j k Hj Hset Hk1) as [Hka Hne].
    split; [done|]. intros [Heq|Hin]%elem_of_cons; done.
Qed.

Lemma guarded_mark_lookup (start stop step : Z) (a a' : list bool) (k : nat) :
  0 < step →
  (if 0 <? start then mark (range3 start stop step) a else Some a) = Some a' →
  a' !! k = Some true →
  a !! k = Some true ∧
  (0 < start → Z.of_nat k ∉ range3 start stop step).
Proof.
  intros Hstep. destruct (0 <? start) eqn:E.
  - intros Hm Hk.
    destruct (mark_lookup (range3 start stop step) a a' k) as [? ?];
      [|done|done|done].
    apply Forall_forall. intros j Hj%range3_bounds; lia.
  - intros [= <-] Hk. split; [done|lia].
Qed.

(** An entry that was set and is cleared by one of the marking loops sits
    at an index of that loop's range. *)
Lemma cleared_by_mark (js : list Z) (a a' : list bool) (k : nat) :
  Forall (λ j, 0 ≤ j < Z.of_nat (length a)) js → mark js a = Some a' →
  a !! k = Some true → a' !! k = Some false → Z.of_nat k ∈ js.
Proof.
  revert a. induction js as [|j js IH]; intros a Hjs; simpl.
  - intros [= <-] H1 H2. congruence.
  - apply Forall_cons in Hjs as [Hj Hjs].
    destruct (np_set_in_range a j false Hj) as (a1 & Hset & Hlen).
    rewrite Hset. simpl. intros Hm Hk Hk'.
    destruct (decide (Z.of_nat k = j)) as [Heq|Hne];
      [rewrite Heq; by left|]. right.
    apply (IH a1); [by rewrite Hlen|done| |done].
    unfold np_set in Hset. rewrite np_index_in_range in Hset by done.
    simpl in Hset. injection Hset as <-.
    rewrite list_lookup_insert_ne by lia. done.
Qed.

Lemma cleared_by_guarded_mark (start stop step : Z) (a a' : list bool)
    (k : nat) :
  0 < step → stop ≤ Z.of_nat (length a) →
  (if 0 <? start then mark (range3 start stop step) a else Some a) = Some a' →
  a !! k = Some true → a' !! k = Some false →
  ∃ t, 0 ≤ t ∧ Z.of_nat k = start + t * step.
Proof.
  intros Hstep Hstop. destruct (0 <? start) eqn:E.
  - intros Hm Hk Hk'.
    assert (Hin : Z.of_nat k ∈ range3 start stop step).
    { eapply cleared_by_mark; [|done..].
      apply Forall_forall. intros j Hj%range3_bounds; lia. }
    apply range3_elem in Hin as (t & ? & ? & _); [|done]. eauto.
  - intros [= <-] H1 H2. congruence.
Qed.

(** X1.  The sieve returns a list exactly for a bound [N >= 0]; for a
    negative bound it raises (a negative array size or the root of a
    negative number). *)
Theorem generate_special_primes_returns_iff (N : Z) :
  is_Some (generate_special_primes N) ↔ 0 ≤ N.
Proof.
  split.
  - intros [l Hl]. destruct (decide (0 ≤ N)) as [|Hneg]; [done|].
    rewrite generate_special_primes_negative in Hl by lia. done.
  - intros HN.
    destruct (generate_special_primes_survivors N HN) as (s1 & s5 & ->).
    by eexists.
Qed.

Lemma three_is_returned (N : Z) (l : list Z) :
  generate_special_primes N = Some l → 0 ≤ N ∧ 3 ∈ l ∧ output_shape N l.
Proof.
  intros Hl. assert (HN : 0 ≤ N).
  { destruct (decide (0 ≤ N)) as [|Hneg]; [done|].
    rewrite generate_special_primes_negative in Hl by lia. done. }
  split; [done|].
  destruct (generate_special_primes_survivors N HN) as (s1 & s5 & Hs).
  destruct (unsorted_shape N s1 s5) as [Hall Hnd].
  rewrite Hs in Hl. injection Hl as <-.
  unfold output_shape, sorted.
  rewrite <- (merge_sort_Permutation Z.le) in Hall, Hnd.
  split; [|split; [done|split; [|done]]].
  - rewrite merge_sort_Permutation. simpl. by left.
  - apply sorted_NoDup_strict; [|done].
    apply (StronglySorted_merge_sort Z.le).
Qed.

(** X3.  Whatever the bound, a returned list starts with 3 and contains
    neither 1, 2 nor 5: the collecting loops start at index 1 of both
    arrays. *)
Theorem generate_special_primes_head (N : Z) (l : list Z) :
  generate_special_primes N = Some l →
  head l = Some 3 ∧ (1 ∉ l) ∧ (2 ∉ l) ∧ (5 ∉ l).
Proof.
  intros (HN & H3 & Hall & Hsorted & _)%three_is_returned.
  rewrite Forall_forall in Hall.
  assert (Hnot : ∀ x, x ∈ l → x ≠ 1 ∧ x ≠ 2 ∧ x ≠ 5).
  { intros x Hx%Hall. lia. }
  split; [|repeat split; intros Hx%Hnot; lia].
  destruct l as [|h t]; [by apply not_elem_of_nil in H3|]. simpl. f_equal.
  apply StronglySorted_inv in Hsorted as [_ Hlt].
  rewrite Forall_forall in Hlt.
  apply elem_of_cons in H3 as [->|H3]; [done|].
  specialize (Hlt 3 H3). specialize (Hall h ltac:(by left)). lia.
Qed.

Lemma generate_special_primes_head_witness :
  head [3; 7; 11; 13; 17; 19] = Some 3 ∧
  (1 ∉ [3; 7; 11; 13; 17; 19]) ∧ (2 ∉ [3; 7; 11; 13; 17; 19]) ∧
  (5 ∉ [3; 7; 11; 13; 17; 19]).
Proof. apply (generate_special_primes_head 20). by vm_compute. Defined.

Lemma cross_out_1_cleared (max_idx_1 max_idx_5 i : Z) st st' :
  1 ≤ i → sized max_idx_1 max_idx_5 st →
  cross_out_1 max_idx_1 max_idx_5 i st = Some st' →
  ∀ k : nat,
    (st.1 !! k = Some true → st'.1 !! k = Some false →
     (6 * i + 1 | 6 * Z.of_nat k + 1) ∧ 6 * i + 1 < 6 * Z.of_nat k + 1) ∧
    (st.2 !! k = Some true → st'.2 !! k = Some false →
     (6 * i + 1 | 6 * Z.of_nat k + 5) ∧ 6 * i + 1 < 6 * Z.of_nat k + 5).
Proof.
  intros Hi [H1 H5]. unfold cross_out_1.
  destruct (mark _ st.1) as [a1|] eqn:Hm1; [|done]. simpl.
  destruct (if 0 <? _ then _ else _) as [a5|] eqn:Hm5; [|done]. simpl.
  intros [= <-] k. simpl. split; intros Hk Hk'.
  - assert (Hin : Z.of_nat k
                  ∈ range3 (i + (6 * i + 1)) (max_idx_1 + 1) (6 * i + 1)).
    { eapply cleared_by_mark; [|done..].
      apply Forall_forall. intros j Hj%range3_bounds; lia. }
    apply range3_elem in Hin as (t & Ht & Hk2 & _); [|lia].
    split; [exists (1 + 6 * (1 + t)); lia|nia].
  - destruct (cleared_by_guarded_mark
                (((6 * i + 1) * 5 - 5) `div` 6) (max_idx_5 + 1) (6 * i + 1)
                st.2 a5 k) as (t & Ht & Hk2); [lia|lia|done..|].
    assert (((6 * i + 1) * 5 - 5) `div` 6 = 5 * i) as Hstart
      by (apply (div_6 _ _ 0); lia).
    rewrite Hstart in Hk2.
    split; [exists (5 + 6 * t); lia|nia].
Qed.

(** X5.  The marks made for [p = 6*i + 1] fall on proper multiples of [p]
    only: an entry that was set before and is cleared after stands for a
    number that [p] divides and that is larger than [p], in either array. *)
Theorem cross_out_1_hits_multiples (max_idx_1 max_idx_5 i : Z) st st' :
  1 ≤ i → sized max_idx_1 max_idx_5 st →
  cross_out_1 max_idx_1 max_idx_5 i st = Some st' →
  ∀ k : nat,
    (st.1 !! k = Some true → st'.1 !! k = Some false →
     (6 * i + 1 | 6 * Z.of_nat k + 1) ∧ 6 * i + 1 < 6 * Z.of_nat k + 1) ∧
    (st.2 !! k = Some true → st'.2 !! k = Some false →
     (6 * i + 1 | 6 * Z.of_nat k + 5) ∧ 6 * i + 1 < 6 * Z.of_nat k + 5).
Proof. apply cross_out_1_cleared. Qed.

(** X6.  The marks made for [p = 6*i + 5] never fall on a multiple of [p]:
    they start at [(p - 1) // 6] and [(5*p - 5) // 6], so a cleared entry
    stands for a number congruent to [p - 4] (first array) or [p - 2]
    (second array) modulo [p]. *)
Theorem cross_out_5_misses_multiples (max_idx_1 max_idx_5 i : Z) st st' :
  1 ≤ i → sized max_idx_1 max_idx_5 st →
  cross_out_5 max_idx_1 max_idx_5 i st = Some st' →
  ∀ k : nat,
    (st.1 !! k = Some true → st'.1 !! k = Some false →
     (6 * Z.of_nat k + 1) `mod` (6 * i + 5) = 6 * i + 1 ∧
     ¬ (6 * i + 5 | 6 * Z.of_nat k + 1)) ∧
    (st.2 !! k = Some true → st'.2 !! k = Some false →
     (6 * Z.of_nat k + 5) `mod` (6 * i + 5) = 6 * i + 3 ∧
     ¬ (6 * i + 5 | 6 * Z.of_nat k + 5)).
Proof.
  intros Hi [H1 H5]. unfold cross_out_5.
  destruct (if 0 <? _ then mark _ st.1 else _) as [a1|] eqn:Hm1; [|done].
  simpl.
  destruct (if 0 <? _ then mark _ st.2 else _) as [a5|] eqn:Hm5; [|done].
  simpl. intros [= <-] k. simpl.
  assert (Hmod : ∀ x r, 0 ≤ r < 6 * i + 5 →
            (∃ t, x = r + t * (6 * i + 5)) →
            x `mod` (6 * i + 5) = r).
  { intros x r Hr [t ->]. rewrite Z_mod_plus_full. apply Z.mod_small. lia. }
  assert (Hnd : ∀ x r, 0 < r < 6 * i + 5 → x `mod` (6 * i + 5) = r →
                       ¬ (6 * i + 5 | x)).
  { intros x r Hr Hx Hdiv. apply Z.mod_divide in Hdiv; lia. }
  split; intros Hk Hk'.
  - destruct (cleared_by_guarded_mark
                (((6 * i + 5) * 1 - 1) `div` 6) (max_idx_1 + 1) (6 * i + 5)
                st.1 a1 k) as (t & Ht & Hk2); [lia|lia|done..|].
    assert (((6 * i + 5) * 1 - 1) `div` 6 = i) as Hstart
      by (apply (div_6 _ _ 4); lia).
    rewrite Hstart in Hk2.
    assert (Hr : (6 * Z.of_nat k + 1) `mod` (6 * i + 5) = 6 * i + 1).
    { apply Hmod; [lia|]. exists (6 * t). lia. }
    split; [done|]. eapply Hnd; [|done]. lia.
  - destruct (cleared_by_guarded_mark
                (((6 * i + 5) * 5 - 5) `div` 6) (max_idx_5 + 1) (6 * i + 5)
                st.2 a5 k) as (t & Ht & Hk2); [lia|lia|done..|].
    assert (((6 * i + 5) * 5 - 5) `div` 6 = 5 * i + 3) as Hstart
      by (apply (div_6 _ _ 2); lia).
    rewrite Hstart in Hk2.
    assert (Hr : (6 * Z.of_nat k + 5) `mod` (6 * i + 5) = 6 * i + 3).
    { apply Hmod; [lia|]. exists (4 + 6 * t). lia. }
    split; [done|]. eapply Hnd; [|done]. lia.
Qed.

Lemma cross_out_1_hits_multiples_witness :
  (6 * 1 + 1 | 6 * Z.of_nat 8 + 1) ∧ 6 * 1 + 1 < 6 * Z.of_nat 8 + 1.
Proof.
  pose proof (cross_out_1_hits_multiples 16 15 1
                (replicate 17 true, replicate 16 true)
                (<[15%nat:=false]> (<[8%nat:=false]> (replicate 17 true)),
                 <[12%nat:=false]> (<[5%nat:=false]> (replicate 16 true))))
    as Hhit.
  destruct (Hhit ltac:(lia) ltac:(by split) ltac:(by vm_compute) 8%nat)
    as [H1 _].
  apply H1; reflexivity.
Defined.

Lemma cross_out_5_misses_multiples_witness :
  (6 * Z.of_nat 1 + 1) `mod` (6 * 1 + 5) = 6 * 1 + 1 ∧
  ¬ (6 * 1 + 5 | 6 * Z.of_nat 1 + 1).
Proof.
  pose proof (cross_out_5_misses_multiples 16 15 1
                (replicate 17 true, replicate 16 true)
                (<[12%nat:=false]> (<[1%nat:=false]> (replicate 17 true)),
                 <[8%nat:=false]> (replicate 16 true)))
    as Hmiss.
  destruct (Hmiss ltac:(lia) ltac:(by split) ltac:(by vm_compute) 1%nat)
    as [H1 _].
  apply H1; reflexivity.
Defined.

Lemma generate_special_primes_shape_witness :
  ∃ l, generate_special_primes 100 = Some l ∧ output_shape 100 l.
Proof. apply (generate_special_primes_shape 100). lia. Defined.

Lemma cross_out_1_clears (max_idx_1 max_idx_5 i : Z) st st' (k : nat) :
  1 ≤ i → cross_out_1 max_idx_1 max_idx_5 i st = Some st' →
  (st'.1 !! k = Some true → st.1 !! k = Some true) ∧
  (st'.2 !! k = Some true → st.2 !! k = Some true).
Proof.
  intros Hi. unfold cross_out_1.
  destruct (mark _ st.1) as [a1|] eqn:Hm1; [|done]. simpl.
  destruct (if 0 <? _ then _ else _) as [a5|] eqn:Hm5; [|done]. simpl.
  intros [= <-]. simpl. split; intros Hk.
  - eapply mark_lookup; [|done..].
    apply Forall_forall. intros j Hj%range3_bounds; lia.
  - eapply guarded_mark_lookup; [|done..]. lia.
Qed.

Lemma cross_out_5_clears (max_idx_1 max_idx_5 i : Z) st st' (k : nat) :
  1 ≤ i → cross_out_5 max_idx_1 max_idx_5 i st = Some st' →
  (st'.1 !! k = Some true → st.1 !! k = Some true) ∧
  (st'.2 !! k = Some true → st.2 !! k = Some true).
Proof.
  intros Hi. unfold cross_out_5.
  destruct (if 0 <? _ then mark _ st.1 else _) as [a1|] eqn:Hm1; [|done].
  simpl.
  destruct (if 0 <? _ then mark _ st.2 else _) as [a5|] eqn:Hm5; [|done].
  simpl. intros [= <-]. simpl.
  split; intros Hk; (eapply guarded_mark_lookup; [|done..]; lia).
Qed.

Lemma sieve_step_clears (max_idx_1 max_idx_5 i : Z) st st' (k : nat) :
  1 ≤ i → sieve_step max_idx_1 max_idx_5 i st = Some st' →
  (st'.1 !! k = Some true → st.1 !! k = Some true) ∧
  (st'.2 !! k = Some true → st.2 !! k = Some true).
Proof.
  intros Hi. unfold sieve_step.
  destruct (np_get st.1 i) as [b1|]; [|done]. simpl.
  destruct (if b1 then _ else _) as [st1|] eqn:H1; [|done]. simpl.
  destruct (if i <=? max_idx_5 then _ else _) as [b5|]; [|done]. simpl.
  intros H5.
  assert (Hst1 : (st1.1 !! k = Some true → st.1 !! k = Some true) ∧
                 (st1.2 !! k = Some true → st.2 !! k = Some true)).
  { destruct b1; [by eapply cross_out_1_clears|].
    injection H1 as <-. done. }
  assert (Hst' : (st'.1 !! k = Some true → st1.1 !! k = Some true) ∧
                 (st'.2 !! k = Some true → st1.2 !! k = Some true)).
  { destruct b5; [by eapply cross_out_5_clears|].
    injection H5 as <-. done. }
  tauto.
Qed.

Lemma sieve_loop_clears (max_idx_1 max_idx_5 : Z) (idxs : list Z)
    st st' (k : nat) :
  Forall (λ i, 1 ≤ i) idxs →
  sieve_loop max_idx_1 max_idx_5 idxs st = Some st' →
  (st'.1 !! k = Some true → st.1 !! k = Some true) ∧
  (st'.2 !! k = Some true → st.2 !! k = Some true).
Proof.
  intros Hidx. revert st.
  induction Hidx as [|i idxs Hi _ IH]; intros st; simpl.
  - intros [= <-]. done.
  - destruct (sieve_step max_idx_1 max_idx_5 i st) as [st1|] eqn:Hstep;
      [|done]. simpl. intros Hloop.
    destruct (sieve_step_clears _ _ _ _ _ k Hi Hstep).
    destruct (IH st1 Hloop). tauto.
Qed.

(** X7.  The sieving loop only ever clears entries: an entry that is set
    after the loop was set before it, in both arrays. *)
Theorem sieve_loop_only_clears (max_idx_1 max_idx_5 : Z) (idxs : list Z)
    st st' (k : nat) :
  Forall (λ i, 1 ≤ i) idxs →
  sieve_loop max_idx_1 max_idx_5 idxs st = Some st' →
  (st'.1 !! k = Some true → st.1 !! k = Some true) ∧
  (st'.2 !! k = Some true → st.2 !! k = Some true).
Proof. apply sieve_loop_clears. Qed.

Lemma sieve_loop_only_clears_witness :
  (<[1%nat:=false]> (replicate 7 true) !! 2%nat = Some true →
   replicate 7 true !! 2%nat = Some true) ∧
  (<[5%nat:=false]> (replicate 6 true) !! 2%nat = Some true →
   replicate 6 true !! 2%nat = Some true).
Proof.
  apply (sieve_loop_only_clears 6 5 [1] (replicate 7 true, replicate 6 true)
           (<[1%nat:=false]> (replicate 7 true),
            <[5%nat:=false]> (replicate 6 true)) 2%nat).
  - constructor; [lia|constructor].
  - by vm_compute.
Defined.

Lemma survivors_all_set (r m x : Z) :
  0 ≤ m →
  x ∈ survivors r (replicate (Z.to_nat (m + 1)) true) (range 1 (m + 1))
  ↔ ∃ i, 1 ≤ i ≤ m ∧ x = 6 * i + r.
Proof.
  intros Hm. unfold survivors. rewrite list_elem_of_fmap. split.
  - intros (i & -> & Hi). apply list_elem_of_filter in Hi as [_ Hi].
    apply range_bounds in Hi. exists i. lia.
  - intros (i & Hi & ->). exists i. split; [done|].
    apply list_elem_of_filter. split; [|apply range_bounds; lia].
    rewrite np_get_in_range by (rewrite length_replicate; lia).
    apply lookup_replicate_2. lia.
Qed.

(** X4.  For a bound below 36 the sieving loop does not run, so nothing is
    crossed out: the result holds 3 and every number from 7 to [N] that is
    congruent to 1 or 5 modulo 6, prime or not. *)
Theorem generate_special_primes_below_36 (N : Z) :
  0 ≤ N < 36 →
  ∃ l, generate_special_primes N = Some l ∧
       ∀ x, x ∈ l ↔
            x = 3 ∨ (7 ≤ x ≤ N ∧ (x `mod` 6 = 1 ∨ x `mod` 6 = 5)).
Proof.
  intros HN. unfold generate_special_primes, np_ones, int_sqrt.
  assert (6 * ((N - 1) `div` 6) ≤ N - 1 < 6 * ((N - 1) `div` 6) + 6).
  { pose proof (Z.mul_div_le (N - 1) 6).
    pose proof (Z.mul_succ_div_gt (N - 1) 6). lia. }
  assert (6 * ((N - 5) `div` 6) ≤ N - 5 < 6 * ((N - 5) `div` 6) + 6).
  { pose proof (Z.mul_div_le (N - 5) 6).
    pose proof (Z.mul_succ_div_gt (N - 5) 6). lia. }
  destruct ((N - 1) `div` 6 + 1 <? 0) eqn:E1; [lia|].
  destruct ((N - 5) `div` 6 + 1 <? 0) eqn:E5; [lia|].
  destruct (N <? 0) eqn:E0; [lia|]. simpl.
  assert (Hroot : Z.sqrt N `div` 6 = 0).
  { apply Z.div_small. split; [apply Z.sqrt_nonneg|].
    apply Z.sqrt_lt_square; lia. }
  rewrite Hroot. change (range 1 (0 + 1)) with (@nil Z). simpl.
  rewrite collect_survivors.
  2:{ apply Forall_forall. intros i Hi%range_bounds.
      rewrite length_replicate. lia. }
  simpl. rewrite collect_survivors.
  2:{ apply Forall_forall. intros i Hi%range_bounds.
      rewrite length_replicate. lia. }
  simpl. eexists; split; [done|]. intros x. unfold sorted.
  rewrite merge_sort_Permutation, elem_of_cons, elem_of_app.
  assert (Hs1 : x ∈ survivors 1
                      (replicate (Z.to_nat ((N - 1) `div` 6 + 1)) true)
                      (range 1 ((N - 1) `div` 6 + 1))
                ↔ 7 ≤ x ≤ N ∧ x `mod` 6 = 1).
  { destruct (decide (0 ≤ (N - 1) `div` 6)) as [H1|H1].
    - rewrite survivors_all_set by done. split.
      + intros (i & Hi & ->). split; [lia|].
        rewrite Z.add_comm, Z.mul_comm, Z_mod_plus_full. done.
      + intros [Hx Hmod]. exists (x `div` 6).
        pose proof (Z.div_mod x 6 ltac:(lia)). lia.
    - unfold survivors, range. rewrite seqZ_nil by lia. simpl.
      rewrite elem_of_nil. lia. }
  assert (Hs5 : x ∈ survivors 5
                      (replicate (Z.to_nat ((N - 5) `div` 6 + 1)) true)
                      (range 1 ((N - 5) `div` 6 + 1))
                ↔ 7 ≤ x ≤ N ∧ x `mod` 6 = 5).
  { destruct (decide (0 ≤ (N - 5) `div` 6)) as [H5|H5].
    - rewrite survivors_all_set by done. split.
      + intros (i & Hi & ->). split; [lia|].
        rewrite Z.add_comm, Z.mul_comm, Z_mod_plus_full. done.
      + intros [Hx Hmod]. exists (x `div` 6).
        pose proof (Z.div_mod x 6 ltac:(lia)). lia.
    - unfold survivors, range. rewrite seqZ_nil by lia. simpl.
      rewrite elem_of_nil.
      pose proof (Z.div_mod x 6 ltac:(lia)). lia. }
  rewrite Hs1, Hs5. tauto.
Qed.

Lemma generate_special_primes_below_36_witness :
  ∃ l, generate_special_primes 35 = Some l ∧ 25 ∈ l ∧ 35 ∈ l ∧ (5 ∉ l).
Proof.
  destruct (generate_special_primes_below_36 35) as (l & Hl & Hin); [lia|].
  exists l. split; [done|].
  split; [apply Hin; right; split; [lia|by left]|].
  split; [apply Hin; right; split; [lia|by right]|].
  intros H5%Hin. lia.
Defined.

End SieveMore.

(** ** The orchestrator: what its stages can and cannot do *)

Module OrchestratorMore.
Import Py Sieve Probe Orchestrator Main Spec SieveFacts SieveSpec.
Import OrchestratorFacts.

Lemma total_batches_cover (len : Z) :
  0 ≤ len → len ≤ (len + batch_size - 1) `div` batch_size * batch_size.
Proof.
  intros Hlen. unfold batch_size.
  pose proof (Z.mul_succ_div_gt (len + 1000 - 1) 1000 ltac:(lia)). lia.
Qed.

Lemma total_batches_nonneg (len : nat) :
  0 ≤ (Z.of_nat len + batch_size - 1) `div` batch_size.
Proof. unfold batch_size. apply Z.div_pos; lia. Qed.

Section WithCollaborators.
Variable factor : Z → option (list (Z * Z)).
Variable is_prime : Z → bool.

Local Abbreviation trial_division := (trial_division factor is_prime).
Local Abbreviation batch_loop := (batch_loop factor is_prime).

Lemma trial_division_app (n : Z) (l1 l2 : list Z) :
  trial_division n (l1 ++ l2)
  = match trial_division n l1 with
    | Some None => trial_division n l2
    | r => r
    end.
Proof.
  induction l1 as [|p l1 IH]; simpl; [done|].
  destruct (n `mod` p =? 0); [|done].
  by destruct (split_off factor is_prime n p).
Qed.

Lemma trial_division_none (n : Z) (ps : list Z) :
  trial_division n ps = Some None → Forall (λ p, n `mod` p ≠ 0) ps.
Proof.
  induction ps as [|p ps IH]; simpl; [constructor|].
  destruct (n `mod` p =? 0) eqn:E.
  - by destruct (split_off factor is_prime n p).
  - intros Hps. constructor; [lia|by apply IH].
Qed.

Lemma batch_loop_from (d : nat) (n : Z) (sp : list Z) (b : Z) :
  let total := (Z.of_nat (length sp) + batch_size - 1) `div` batch_size in
  Z.of_nat d = total - b → 0 ≤ b →
  batch_loop n sp (range b total)
  = trial_division n (drop (Z.to_nat (b * batch_size)) sp).
Proof.
  intros total. revert b. induction d as [|d IH]; intros b Hd Hb.
  - assert (b = total) as -> by lia.
    unfold range. rewrite Z.sub_diag. simpl.
    rewrite drop_ge; [done|].
    pose proof (total_batches_cover (Z.of_nat (length sp)) ltac:(lia)).
    fold total in H. lia.
  - unfold range. rewrite seqZ_cons by lia. fold (range (Z.succ b) total).
    replace (Z.pred (total - b)) with (total - Z.succ b) by lia.
    fold (range (Z.succ b) total). simpl.
    rewrite IH by lia.
    set (start := Z.to_nat (b * batch_size)).
    assert (Hslice :
      slice sp (b * batch_size)
            (Z.min ((b + 1) * batch_size) (Z.of_nat (length sp)))
      = take (Z.to_nat batch_size) (drop start sp)).
    { unfold slice. fold start.
      destruct (decide ((b + 1) * batch_size ≤ Z.of_nat (length sp))).
      - rewrite Z.min_l by done. f_equal. lia.
      - rewrite Z.min_r by lia.
        rewrite !take_ge; [done|rewrite length_drop..]; unfold batch_size in *;
          lia. }
    rewrite Hslice.
    rewrite <- (take_drop (Z.to_nat batch_size) (drop start sp)) at 2.
    rewrite trial_division_app, drop_drop.
    replace (Z.to_nat (Z.succ b * batch_size))
      with (start + Z.to_nat batch_size)%nat by (unfold batch_size in *; lia).
    by destruct (trial_division n (take _ _)) as [[?|]|].
Qed.

(** X9.  Processing the special primes in batches of 1000 is plain trial
    division over the whole list: same divisor found, same result, same
    exception. *)
Theorem batches_are_trial_division (n : Z) (special_primes : list Z) :
  batch_loop n special_primes
    (range 0 ((Z.of_nat (length special_primes) + batch_size - 1)
              `div` batch_size))
  = trial_division n special_primes.
Proof.
  pose proof (total_batches_nonneg (length special_primes)) as Hpos.
  rewrite (batch_loop_from
             (Z.to_nat ((Z.of_nat (length special_primes) + batch_size - 1)
                        `div` batch_size)) n special_primes 0) by lia.
  done.
Qed.

Variable GF : Z → bool.
Variable cyclotomic_vanishes : Z → Z → Z → option bool.

Lemma selected_loop_none (n max_attempts : Z) (sel : list Z) :
  Forall (λ p, n `mod` p ≠ 0) sel →
  selected_loop factor is_prime GF cyclotomic_vanishes n max_attempts sel
  = None.
Proof.
  induction 1 as [|p sel Hp _ IH]; simpl; [done|].
  assert (Hm : ∀ q ms, cyclotomic_m_loop factor is_prime cyclotomic_vanishes
                         n p q ms = None).
  { intros q ms. induction ms as [|m ms IHm]; simpl; [done|].
    unfold cyclotomic_try.
    destruct (cyclotomic_vanishes q m _) as [[|]|]; [|done..].
    destruct (n `mod` p =? 0) eqn:E; [lia|done]. }
  assert (Hk : ∀ ks, power_loop factor is_prime GF cyclotomic_vanishes
                       n p ks = None).
  { intros ks. induction ks as [|k ks IHk]; [done|]. cbn [power_loop].
    destruct (10 ^ 6 <? p ^ k); [done|]. destruct (negb _); [done|].
    by rewrite Hm. }
  by rewrite Hk.
Qed.

Lemma stage_3_fails (n : Z) (sp : list Z) :
  batch_loop n sp
    (range 0 ((Z.of_nat (length sp) + batch_size - 1) `div` batch_size))
  = Some None →
  Forall (λ p, n `mod` p ≠ 0) sp.
Proof.
  pose proof (total_batches_nonneg (length sp)) as Hpos.
  rewrite (batch_loop_from
             (Z.to_nat ((Z.of_nat (length sp) + batch_size - 1)
                        `div` batch_size)) n sp 0) by lia.
  apply trial_division_none.
Qed.

Lemma stride_Forall (P : Z → Prop) (step skip : nat) (l : list Z) :
  Forall P l → Forall P (stride step skip l).
Proof.
  intros Hl. apply Forall_forall. intros x Hx%stride_subset.
  by eapply Forall_forall in Hl.
Qed.

Local Abbreviation orchestrate :=
  (factor_large_semiprime factor is_prime GF cyclotomic_vanishes).

(** X10.  The finite-field stage never produces the result: it returns only
    when a sampled special prime divides [n], and stage 3 has already tried
    every special prime.  So the orchestrator returns from stage 1, 2 or 3,
    or ends with the empty list. *)
Theorem never_returns_from_cyclotomic_stage (n max_prime max_attempts : Z)
    st fs :
  orchestrate n max_prime max_attempts = Some (st, fs) → st ≠ Cyclotomic.
Proof.
  unfold factor_large_semiprime.
  destruct (factor n) as [l|]; [by intros [= <- <-]|].
  destruct (Orchestrator.trial_division _ _ n small_primes) as [[fs2|]|];
    simpl; [by intros [= <- <-]| |done].
  unfold special_stages.
  destruct (int_sqrt n) as [root|]; [|done]. simpl.
  destruct (generate_special_primes _) as [sp|]; [|done]. simpl.
  destruct (Orchestrator.batch_loop _ _ n sp _) as [[fs3|]|] eqn:H3;
    simpl; [by intros [= <- <-]| |done].
  apply stage_3_fails in H3.
  rewrite selected_loop_none by (by apply stride_Forall).
  by intros [= <- <-].
Qed.

(** X12.  The final empty list means: the direct stage failed, no prime of
    the small list divides [n], the sieve returned a list for the bound
    [min(isqrt(n) + 1, max_prime)], and nothing in that list divides [n]. *)
Theorem exhausted_means_no_divisor_found (n max_prime max_attempts : Z) fs :
  orchestrate n max_prime max_attempts = Some (Exhausted, fs) →
  fs = [] ∧ factor n = None ∧
  Forall (λ p, n `mod` p ≠ 0) small_primes ∧
  ∃ root special_primes,
    int_sqrt n = Some root ∧
    generate_special_primes (Z.min (root + 1) max_prime)
    = Some special_primes ∧
    Forall (λ p, n `mod` p ≠ 0) special_primes.
Proof.
  unfold factor_large_semiprime.
  destruct (factor n) as [l|]; [done|].
  destruct (Orchestrator.trial_division _ _ n small_primes) as [[fs2|]|]
    eqn:H2; simpl; [done| |done].
  apply trial_division_none in H2.
  unfold special_stages.
  destruct (int_sqrt n) as [root|]; [|done]. simpl.
  destruct (generate_special_primes _) as [sp|] eqn:Hsp; [|done]. simpl.
  destruct (Orchestrator.batch_loop _ _ n sp _) as [[fs3|]|] eqn:H3;
    simpl; [done| |done].
  apply stage_3_fails in H3.
  rewrite selected_loop_none by (by apply stride_Forall).
  intros [= <-]. repeat split; try done. by exists root, sp.
Qed.

(** X14.  When the direct stage fails, [p] is the first prime of the small
    list that divides [n] and the cofactor [n // p] passes the primality
    test, the orchestrator returns [p, n // p] from stage 2, and that list
    verifies. *)
Theorem first_small_prime_with_prime_cofactor
    (n p max_prime max_attempts : Z) (before after : list Z) :
  factor n = None →
  small_primes = before ++ p :: after →
  Forall (λ p', n `mod` p' ≠ 0) before →
  n `mod` p = 0 →
  is_prime (n `div` p) = true →
  orchestrate n max_prime max_attempts = Some (SmallPrime, [p; n `div` p]) ∧
  verify_factorization n [p; n `div` p] = true.
Proof.
  intros Hf Hsmall Hbefore Hmod Hprime. split.
  - unfold factor_large_semiprime. rewrite Hf, Hsmall, trial_division_app.
    assert (Hnone : trial_division n before = Some None).
    { clear Hsmall. induction Hbefore as [|p' l Hp' _ IH]; simpl; [done|].
      destruct (n `mod` p' =? 0) eqn:E; [lia|done]. }
    rewrite Hnone. simpl. rewrite (proj2 (Z.eqb_eq _ _) Hmod).
    unfold split_off. by rewrite Hprime.
  - apply verify_factorization_product. unfold product. simpl.
    assert (Hpos : Forall (λ p', 0 < p') small_primes).
    { unfold small_primes. repeat (constructor; [lia|]). constructor. }
    rewrite Hsmall in Hpos. apply Forall_app in Hpos as [_ Hpos].
    apply Forall_cons in Hpos as [Hp _].
    pose proof (Z_div_exact_full_2 n p ltac:(lia) Hmod). lia.
Qed.

End WithCollaborators.

(** X11.  The result does not depend on [max_attempts], on the field
    constructor or on the cyclotomic evaluation: two runs that differ only
    in these return the same stage and list, or both raise. *)
Theorem result_independent_of_field_stage
    (factor : Z → option (list (Z * Z))) (is_prime : Z → bool)
    (GF GF' : Z → bool) (cyc cyc' : Z → Z → Z → option bool)
    (n max_prime max_attempts max_attempts' : Z) :
  factor_large_semiprime factor is_prime GF cyc n max_prime max_attempts
  = factor_large_semiprime factor is_prime GF' cyc' n max_prime max_attempts'.
Proof.
  unfold factor_large_semiprime.
  destruct (factor n) as [l|]; [done|].
  destruct (trial_division _ _ n small_primes) as [[fs2|]|]; simpl;
    [done| |done].
  unfold special_stages.
  destruct (int_sqrt n) as [root|]; [|done]. simpl.
  destruct (generate_special_primes _) as [sp|]; [|done]. simpl.
  destruct (batch_loop _ _ n sp _) as [[fs3|]|] eqn:H3; simpl; [done| |done].
  apply stage_3_fails in H3.
  by rewrite !selected_loop_none by (by apply stride_Forall).
Qed.

End OrchestratorMore.

(** ** The orchestrator's result and the script around it *)

Module OrchestratorResult.
Import Py Sieve Probe Orchestrator Main Spec.
Import OrchestratorFacts ReferenceFacts.

Section WithCollaborators.
Variable factor : Z → option (list (Z * Z)).
Variable is_prime : Z → bool.
Variable GF : Z → bool.
Variable cyclotomic_vanishes : Z → Z → Z → option bool.

Local Abbreviation orchestrate :=
  (factor_large_semiprime factor is_prime GF cyclotomic_vanishes).
Local Abbreviation main :=
  (rsa_multi_method_main factor is_prime GF cyclotomic_vanishes).

Lemma bases_divide (n : Z) (l : list (Z * Z)) :
  factorisation_of n l → Forall (λ x, 0 < x ∧ (x | n)) l.*1.
Proof.
  intros Hl. apply Forall_forall. intros x Hx.
  apply list_elem_of_fmap in Hx as ([p e] & -> & Hin). simpl.
  destruct (factorisation_bases_divide n l p e Hl Hin). split; [lia|done].
Qed.

Lemma split_result_divides (n : Z) (fs : list Z) :
  factor_sound factor → 0 < n →
  split_result factor is_prime n fs → Forall (λ x, 0 < x ∧ (x | n)) fs.
Proof.
  intros Hsound Hn (p & Hp & Hmod & Hsplit).
  assert (Hdiv : n = p * (n `div` p)) by (apply Z_div_exact_full_2; lia).
  assert (Hother : 0 < n `div` p) by nia.
  unfold split_off in Hsplit. destruct (is_prime _).
  - injection Hsplit as <-.
    repeat constructor; try lia.
    + exists (n `div` p). lia.
    + exists p. lia.
  - destruct (factor (n `div` p)) as [sub|] eqn:Hsub; [|done].
    simpl in Hsplit. injection Hsplit as <-.
    unfold sorted. rewrite merge_sort_Permutation, foldl_append_bases.
    apply Forall_app. split.
    + repeat constructor; [lia|]. exists (n `div` p). lia.
    + eapply Forall_impl; [apply (bases_divide (n `div` p)); by apply Hsound|].
      simpl. intros x [Hx Hd]. split; [done|].
      etrans; [apply Hd|]. exists p. lia.
Qed.

(** X13.  With a general factorizer whose answers multiply back to their
    input, every number the orchestrator returns for a positive [n] is a
    positive divisor of [n], whichever stage returned. *)
Theorem returned_factors_divide (n max_prime max_attempts : Z) st fs :
  factor_sound factor → 0 < n →
  orchestrate n max_prime max_attempts = Some (st, fs) →
  Forall (λ x, 0 < x ∧ (x | n)) fs.
Proof.
  intros Hsound Hn Hrun.
  apply (orchestrate_cases factor is_prime GF cyclotomic_vanishes) in Hrun
    as [(_ & l & Hl & ->)|[(_ & _ & _ & Hsplit)|(_ & _ & ->)]].
  - by apply bases_divide, Hsound.
  - by apply split_result_divides.
  - constructor.
Qed.

Lemma squarefree_result_product (n max_prime max_attempts : Z) st fs :
  factor_sound factor → 0 < n → squarefree n →
  orchestrate n max_prime max_attempts = Some (st, fs) →
  fs ≠ [] → product fs = n.
Proof.
  intros Hsound Hn Hsq Hrun Hne.
  apply (orchestrate_cases factor is_prime GF cyclotomic_vanishes) in Hrun
    as [(_ & l & Hl & ->)|[(_ & _ & _ & Hsplit)|(_ & _ & ->)]].
  - apply squarefree_distinct_primes; [done|]. by apply Hsound.
  - by apply (split_result_product factor is_prime).
  - done.
Qed.

(** X15.  The check the script prints for a two-element result is the
    verdict of [verify_factorization] on that result, and for a positive
    squarefree input (and a general factorizer whose answers multiply back)
    it is never [False]. *)
Theorem main_check_is_verification (n : Z) (fs : list Z) (b : bool) :
  main n = Some (Factors fs (Some b)) →
  b = verify_factorization n fs ∧
  (factor_sound factor → 0 < n → squarefree n → b = true).
Proof.
  unfold rsa_multi_method_main.
  destruct (orchestrate n 10000 2) as [[st fs']|] eqn:Hrun; [|done]. simpl.
  destruct fs' as [|p [|q [|r fs'']]]; try done.
  intros [= <- <-].
  assert (Hb : (p * q =? n) = verify_factorization n [p; q]).
  { unfold verify_factorization. simpl. by rewrite Z.mul_1_l. }
  split; [done|]. intros Hsound Hn Hsq. rewrite Hb.
  apply verify_factorization_product.
  by eapply squarefree_result_product.
Qed.

End WithCollaborators.

End OrchestratorResult.

(** ** The probe: guards, output and decoding *)

Module ProbeMore.
Import Py Probe Spec ProbeFacts SieveSpec OrchestratorFacts.

Lemma announced_snoc (out : list msg) (line : msg) :
  announced (out ++ [line])
  = announced out ++ match line with OverField _ m => [m] | _ => [] end.
Proof.
  unfold announced. rewrite omap_app. f_equal. by destruct line.
Qed.

Lemma horner_inj (p : Z) (c1 c2 : list Z) :
  length c1 = length c2 →
  Forall (λ c, 0 ≤ c < p) c1 → Forall (λ c, 0 ≤ c < p) c2 →
  horner p c1 = horner p c2 → c1 = c2.
Proof.
  revert c2. induction c1 as [|a c1 IH]; intros [|b c2] Hlen H1 H2 Heq;
    try done.
  apply Forall_cons in H1 as [Ha H1]. apply Forall_cons in H2 as [Hb H2].
  simpl in Heq.
  assert (a = b).
  { assert (Hma : (a + p * horner p c1) `mod` p = a).
    { rewrite Z.mul_comm, Z_mod_plus_full. apply Z.mod_small. lia. }
    assert (Hmb : (b + p * horner p c2) `mod` p = b).
    { rewrite Z.mul_comm, Z_mod_plus_full. apply Z.mod_small. lia. }
    congruence. }
  subst b. f_equal. apply IH; [by injection Hlen|done..|].
  assert (p * horner p c1 = p * horner p c2) by lia.
  apply (Z.mul_reg_l _ _ p); [lia|done].
Qed.

(** X19.  Decoding is injective on canonical residues: two coefficient
    lists of the same length with entries in [0, p) that decode to the same
    candidate are the same list. *)
Theorem factor_value_injective (p : Z) (c1 c2 : list Z) :
  length c1 = length c2 →
  Forall (λ c, 0 ≤ c < p) c1 → Forall (λ c, 0 ≤ c < p) c2 →
  factor_value p c1 = factor_value p c2 → c1 = c2.
Proof.
  intros Hlen H1 H2.
  rewrite !factor_value_weighted_sum, !weighted_sum_horner. simpl.
  rewrite !Z.mul_1_l. intros Heq.
  apply (inj reverse). apply (horner_inj p).
  - by rewrite !length_reverse.
  - by apply Forall_reverse.
  - by apply Forall_reverse.
  - done.
Qed.

Lemma factor_value_injective_witness : [1; 6] = [1; 6].
Proof.
  apply (factor_value_injective 7 [1; 6] [1; 6]);
    [done|repeat constructor; lia..|done].
Defined.

(** X20.  The verdict of [verify_factorization] does not depend on the
    order of the factors. *)
Theorem verify_factorization_Permutation (number : Z) (l1 l2 : list Z) :
  l1 ≡ₚ l2 →
  verify_factorization number l1 = verify_factorization number l2.
Proof.
  intros Hperm.
  destruct (verify_factorization number l1) eqn:E1,
           (verify_factorization number l2) eqn:E2; try done.
  - apply verify_factorization_product in E1.
    rewrite (product_Permutation _ _ Hperm) in E1.
    apply verify_factorization_product in E1. congruence.
  - apply verify_factorization_product in E2.
    rewrite <- (product_Permutation _ _ Hperm) in E2.
    apply verify_factorization_product in E2. congruence.
Qed.

Lemma verify_factorization_Permutation_witness :
  verify_factorization 21 [3; 7] = verify_factorization 21 [7; 3].
Proof.
  apply (verify_factorization_Permutation 21 [3; 7] [7; 3]).
  apply Permutation_swap.
Defined.

Section WithFactorizer.
Variable factor_list : Z → Z → option (list (option (list Z))).

Lemma process_factor_nonzero p n verbose s fact :
  nonzero_divisors n (factors s) →
  nonzero_divisors n (factors (process_factor p n verbose s fact)).
Proof.
  intros Hs. unfold process_factor. destruct fact as [coeffs|].
  - destruct (negb _ && _) eqn:Hguard; [|done].
    destruct (decide _); [done|].
    destruct (print _ _ _) as [s'|] eqn:E; [|by rewrite factors_say].
    apply print_Some in E as ->. simpl. rewrite factors_say.
    apply andb_true_iff in Hguard as [Hnz Hmod].
    apply negb_true_iff, Z.eqb_neq in Hnz. apply Z.eqb_eq in Hmod.
    intros x [->%elem_of_singleton|Hx]%elem_of_union; [|by apply Hs].
    split; [done|]. by apply Z.mod_divide.
  - by rewrite factors_say.
Qed.

(** X16.  Whatever the polynomial factorizer answers, the probe returns
    only non-zero divisors of [n]: the guard
    [factor_value != 0 and n % factor_value == 0] stands before every
    [add]. *)
Theorem probe_returns_divisors (p k n : Z) (verbose : bool) (l : list Z) :
  laplacian_eigenfunction_approach factor_list (p, k, n, verbose) = Some l →
  Forall (λ x, x ≠ 0 ∧ (x | n)) l.
Proof.
  unfold laplacian_eigenfunction_approach.
  destruct (run factor_list (p, k, n, verbose)) as [s|] eqn:Hrun; [|done].
  simpl. intros [= <-].
  apply Forall_forall. intros x Hx%elem_of_elements. revert x Hx.
  change (nonzero_divisors n (factors s)).
  apply (run_invariant factor_list (nonzero_divisors n) p k n verbose);
    [| |done].
  - intros m fs fact s0 _ _ _. apply process_factor_nonzero.
  - intros x Hx. by apply not_elem_of_empty in Hx.
Qed.

(** X17.  With [k = 1] the probe returns the empty list when the field is
    above the size limit ([p > 10**12]) and when there is no exponent to try
    ([p < 3], an invalid modulus included), provided it runs quietly or
    [p] is within the limit on int to str conversion: the line about the
    field can then be printed. *)
Theorem probe_outside_range_is_empty (p n : Z) (verbose : bool) :
  p < 3 ∨ 10 ^ 12 < p →
  verbose = false ∨ Z.abs p < 10 ^ int_max_str_digits →
  laplacian_eigenfunction_approach factor_list (p, 1, n, verbose) = Some [].
Proof.
  intros Hp Hprint.
  assert (Hq : verbose = false ∨ num_str_ok (PyInt p) = true).
  { destruct Hprint as [->|Hq]; [by left|right]. by apply str_ok_spec. }
  unfold laplacian_eigenfunction_approach, run, body, py_pow. simpl.
  rewrite Z.pow_1_r. destruct (10 ^ 12 <? p) eqn:E.
  - rewrite print_ok by done. simpl. rewrite factors_say. simpl.
    by rewrite elements_empty.
  - destruct (p <=? 0) eqn:E0.
    + rewrite print_ok by done. simpl. rewrite factors_say. simpl.
      by rewrite elements_empty.
    + unfold range. rewrite seqZ_nil by lia. simpl.
      by rewrite elements_empty.
Qed.

Lemma process_factor_out p n s fact :
  out (process_factor p n false s fact) = out s ∧
  announced (out (process_factor p n true s fact)) = announced (out s).
Proof.
  unfold process_factor. destruct fact as [coeffs|]; simpl.
  - destruct (negb _ && _); [|done]. destruct (decide _); [done|].
    split; [done|].
    destruct (print _ _ _) as [s'|] eqn:E.
    + apply print_Some in E as ->. simpl.
      by rewrite announced_snoc, app_nil_r.
    + simpl. by rewrite announced_snoc, app_nil_r.
  - by rewrite announced_snoc, app_nil_r.
Qed.

Lemma foldl_process_factor_quiet_out p n fs s :
  out (foldl (process_factor p n false) s fs) = out s.
Proof.
  revert s. induction fs as [|f fs IH]; intros s; simpl; [done|].
  rewrite IH. apply process_factor_out.
Qed.

Lemma foldl_process_factor_announced p n fs s :
  announced (out (foldl (process_factor p n true) s fs)) = announced (out s).
Proof.
  revert s. induction fs as [|f fs IH]; intros s; simpl; [done|].
  rewrite IH. apply process_factor_out.
Qed.

Lemma m_loop_quiet_out p q n ms s :
  out (state (m_loop factor_list p q n false ms s)) = out s.
Proof.
  revert s. induction ms as [|m ms IH]; intros s; simpl; [done|].
  rewrite loop_body_ok by (by left).
  destruct (factor_list m p) as [fs|]; [|by rewrite IH].
  destruct (_ || _); simpl.
  - by rewrite foldl_process_factor_quiet_out.
  - by rewrite IH, foldl_process_factor_quiet_out.
Qed.

Lemma m_loop_announced p q n ms s :
  num_str_ok q = true → Forall (λ m, str_ok m = true) ms →
  announced (out s) = visited s →
  announced (out (state (m_loop factor_list p q n true ms s)))
  = visited (state (m_loop factor_list p q n true ms s)).
Proof.
  intros Hq Hms. revert s.
  induction Hms as [|m ms Hm Hms IH]; intros s Hs; cbn [m_loop]; [done|].
  rewrite loop_body_ok by (right; by split).
  assert (Hen : announced (out (say true (OverField q m) (enter m s)))
                = visited (say true (OverField q m) (enter m s)))
    by (simpl; by rewrite announced_snoc, Hs).
  destruct (factor_list m p) as [fs|].
  - assert (Hfold : announced (out (foldl (process_factor p n true)
                       (say true (OverField q m) (enter m s)) fs))
                    = visited (foldl (process_factor p n true)
                       (say true (OverField q m) (enter m s)) fs))
      by (by rewrite foldl_process_factor_announced,
               visited_foldl_process_factor).
    destruct (_ || _); [done|]. by apply IH.
  - apply IH. simpl. simpl in Hen. by rewrite announced_snoc, app_nil_r.
Qed.

(** X18.  A quiet probe prints nothing; a verbose probe prints one
    "Over GF(q), m = ..." line for each exponent whose loop body it enters,
    in that order. *)
Theorem probe_output (p k n : Z) :
  (∀ s, run factor_list (p, k, n, false) = Some s → out s = []) ∧
  (∀ s, run factor_list (p, k, n, true) = Some s →
        announced (out s) = visited s).
Proof.
  unfold run. destruct (py_pow p k) as [q|] eqn:Hpow; [|done]. simpl.
  split; intros s.
  - assert (Hbody : out (state (body factor_list p q k n false)) = []).
    { unfold body. destruct (num_gt q (10 ^ 12)); [done|].
      destruct (k =? 1); [|done]. destruct (p <=? 0); [done|].
      apply m_loop_quiet_out. }
    destruct (body factor_list p q k n false) as [s0|s0]; simpl in Hbody;
      by intros [= <-].
  - assert (Hsay : ∀ line s0,
              match line with OverField _ _ => False | _ => True end →
              announced (out s0) = visited s0 →
              ∀ s1, print true line s0 = Some s1 →
                    announced (out s1) = visited s1).
    { intros line s0 Hline Hs0 s1 ->%print_Some. simpl.
      rewrite announced_snoc, Hs0. destruct line; try done;
        by rewrite app_nil_r. }
    assert (Hbody : announced (out (state (body factor_list p q k n true)))
                    = visited (state (body factor_list p q k n true))).
    { unfold body. destruct (num_gt q (10 ^ 12)) eqn:Egt.
      - destruct (print true (FieldTooLarge q) init) eqn:E; [|done].
        by eapply Hsay in E.
      - destruct (k =? 1) eqn:Ek1.
        + destruct (p <=? 0) eqn:Ep; [done|].
          apply Z.eqb_eq in Ek1 as ->. simpl in Hpow. injection Hpow as <-.
          simpl in Egt. destruct (probe_loop_lines p) as [Hq Hms]; [lia..|].
          by apply m_loop_announced.
        + destruct (print true (ExtensionNotImplemented k) init) eqn:E;
            [|done].
          by eapply Hsay in E. }
    destruct (body factor_list p q k n true) as [s0|s0]; simpl in Hbody.
    + by intros [= <-].
    + intros Hp. by eapply Hsay in Hp.
Qed.

(** X26.  A quiet probe raises at [p ** k] or not at all: it returns
    exactly when the exponent is non-negative, or the base is non-zero and
    both operands fit a float. *)
Theorem quiet_probe_returns_iff (p k n : Z) :
  is_Some (laplacian_eigenfunction_approach factor_list (p, k, n, false))
  ↔ 0 ≤ k ∨ (p ≠ 0 ∧ Z.abs p < 2 ^ 1024 - 2 ^ 970
                   ∧ Z.abs k < 2 ^ 1024 - 2 ^ 970).
Proof.
  unfold laplacian_eigenfunction_approach, run.
  assert (Hpow : is_Some (py_pow p k)
                 ↔ 0 ≤ k ∨ (p ≠ 0 ∧ Z.abs p < 2 ^ 1024 - 2 ^ 970
                                  ∧ Z.abs k < 2 ^ 1024 - 2 ^ 970)).
  { unfold py_pow, float_ok. destruct (0 <=? k) eqn:Ek.
    - split; [intros _; left; lia|by eexists].
    - destruct (p =? 0) eqn:Ep; simpl.
      + split; [by intros [? ?]|intros [?|(? & _)]; lia].
      + destruct (Z.abs p <? _) eqn:Efp; simpl.
        * destruct (Z.abs k <? _) eqn:Efk; simpl.
          -- split; [intros _; right; lia|by eexists].
          -- split; [by intros [? ?]|intros [?|(_ & _ & ?)]; lia].
        * split; [by intros [? ?]|intros [?|(_ & ? & _)]; lia]. }
  rewrite <- Hpow. destruct (py_pow p k) as [q|]; simpl.
  - split; [by eexists|intros _].
    by destruct (body factor_list p q k n false).
  - split; by intros [? ?].
Qed.

Lemma process_factor_within p n s1 s2 fact :
  factors s1 ⊆ factors s2 →
  factors (process_factor p n true s1 fact)
  ⊆ factors (process_factor p n false s2 fact).
Proof.
  intros Hsub. unfold process_factor. destruct fact as [coeffs|];
    [|by rewrite !factors_say].
  destruct (negb _ && _); [|done].
  assert (Hloud : ∀ X : gset Z,
            factors s1 ⊆ X → factor_value p coeffs ∈ X →
            factors (if decide (factor_value p coeffs ∈ factors s1) then s1
                     else match print true (FoundNewFactor
                                              (factor_value p coeffs)) s1 with
                          | Some s' => add (factor_value p coeffs) s'
                          | None => say true ErrorProcessingFactor s1
                          end) ⊆ X).
  { intros X HX Hv. destruct (decide _); [done|].
    destruct (print _ _ _) as [s'|] eqn:E; [|done].
    apply print_Some in E as ->. simpl. set_solver. }
  destruct (decide (_ ∈ factors s2)); [by apply Hloud|].
  simpl. apply Hloud; set_solver.
Qed.

Lemma foldl_process_factor_within p n fs s1 s2 :
  factors s1 ⊆ factors s2 →
  factors (foldl (process_factor p n true) s1 fs)
  ⊆ factors (foldl (process_factor p n false) s2 fs).
Proof.
  revert s1 s2. induction fs as [|f fs IH]; intros s1 s2 Hsub; simpl;
    [done|].
  by apply IH, process_factor_within.
Qed.

Lemma m_loop_quiet_grows p q n ms s :
  factors s ⊆ factors (state (m_loop factor_list p q n false ms s)).
Proof.
  apply (m_loop_invariant factor_list (λ X, factors s ⊆ X)); [|done].
  intros ? ? fact s0 _ _ _ Hs0. etrans; [done|].
  apply process_factor_grows.
Qed.

Lemma m_loop_within p q n ms s1 s2 :
  factors s1 ⊆ factors s2 →
  factors (state (m_loop factor_list p q n true ms s1))
  ⊆ factors (state (m_loop factor_list p q n false ms s2)).
Proof.
  revert s1 s2. induction ms as [|m ms IH]; intros s1 s2 Hsub; simpl;
    [done|].
  rewrite (loop_body_ok factor_list p q n false) by (by left).
  unfold loop_body at 1.
  destruct (print true (OverField q m) (enter m s1)) as [s1'|] eqn:E1.
  - apply print_Some in E1 as ->.
    destruct (factor_list m p) as [fs|].
    + assert (factors (foldl (process_factor p n true)
                         (say true (OverField q m) (enter m s1)) fs)
              ⊆ factors (foldl (process_factor p n false)
                           (say false (OverField q m) (enter m s2)) fs))
        by (by apply foldl_process_factor_within).
      destruct (_ || _); [done|]. by apply IH.
    + destruct (print true (ErrorFactoringPolynomial m) _) as [s1'|] eqn:E2.
      * apply print_Some in E2 as ->. by apply IH.
      * simpl. etrans; [|apply m_loop_quiet_grows]. done.
  - simpl. etrans; [exact Hsub|].
    destruct (factor_list m p) as [fs|].
    + assert (factors s2
              ⊆ factors (foldl (process_factor p n false)
                           (say false (OverField q m) (enter m s2)) fs))
        by apply (foldl_process_factor_grows p n false fs
                    (say false (OverField q m) (enter m s2))).
      destruct (_ || _); [done|].
      etrans; [|apply m_loop_quiet_grows]. done.
    + apply (m_loop_quiet_grows p q n ms
               (say false (ErrorFactoringPolynomial m)
                  (say false (OverField q m) (enter m s2)))).
Qed.

(** X27.  Whenever a verbose probe returns, the quiet probe on the same
    task returns too, and with every factor the verbose one returns: a
    print that fails only ever keeps a factor out of the set. *)
Theorem verbose_result_within_quiet (p k n : Z) (l : list Z) :
  laplacian_eigenfunction_approach factor_list (p, k, n, true) = Some l →
  ∃ l', laplacian_eigenfunction_approach factor_list (p, k, n, false)
        = Some l' ∧ l ⊆ l'.
Proof.
  unfold laplacian_eigenfunction_approach, run.
  destruct (py_pow p k) as [q|]; [|done]. simpl.
  assert (Hbody : factors (state (body factor_list p q k n true))
                  ⊆ factors (state (body factor_list p q k n false))).
  { unfold body. destruct (num_gt q (10 ^ 12));
      [by rewrite !factors_attempt|].
    destruct (k =? 1); [|by rewrite !factors_attempt].
    destruct (p <=? 0); [done|]. by apply m_loop_within. }
  assert (Hquiet : match body factor_list p q k n false with
                   | Done s => Some s
                   | Raised s => print false (ErrorCreatingField q) s
                   end = Some (state (body factor_list p q k n false)))
    by (by destruct (body factor_list p q k n false)).
  rewrite Hquiet. simpl.
  intros Hloud. eexists. split; [done|].
  assert (Hl : ∃ s, l = elements (factors s)
                    ∧ factors s
                      = factors (state (body factor_list p q k n true))).
  { destruct (body factor_list p q k n true) as [s0|s0]; simpl in *.
    - injection Hloud as <-. by eexists.
    - destruct (print true (ErrorCreatingField q) s0) as [s1|] eqn:E;
        [|done].
      injection Hloud as <-. apply print_Some in E as ->.
      eexists. split; [done|]. by rewrite factors_say. }
  destruct Hl as (s & -> & Hs). intros x Hx%elem_of_elements.
  apply elem_of_elements, Hbody. by rewrite <- Hs.
Qed.

End WithFactorizer.

Lemma probe_returns_divisors_witness :
  Forall (λ x, x ≠ 0 ∧ (x | 24)) [3; 6; 4].
Proof.
  apply (probe_returns_divisors Reference.factor_list 5 1 24 false [3; 6; 4]).
  by vm_compute.
Defined.

Lemma verbose_result_within_quiet_witness :
  ∃ l', Reference.laplacian_eigenfunction_approach (5, 1, 24, false)
        = Some l' ∧ [3; 6; 4] ⊆ l'.
Proof.
  apply (verbose_result_within_quiet Reference.factor_list 5 1 24 [3; 6; 4]).
  by vm_compute.
Defined.

Lemma probe_outside_range_is_empty_witness :
  Reference.laplacian_eigenfunction_approach (2, 1, 91, true) = Some [] ∧
  Reference.laplacian_eigenfunction_approach (10 ^ 12 + 39, 1, 91, true)
  = Some [] ∧
  Reference.laplacian_eigenfunction_approach (- 10 ^ 4300, 1, 91, false)
  = Some [].
Proof.
  split; [|split].
  - apply (probe_outside_range_is_empty Reference.factor_list); [lia|].
    right. by vm_compute.
  - apply (probe_outside_range_is_empty Reference.factor_list); [lia|].
    right. by vm_compute.
  - apply (probe_outside_range_is_empty Reference.factor_list);
      [left; by vm_compute|by left].
Defined.

Lemma probe_output_witness :
  announced [OverField (PyInt 5) 3; FoundNewFactor 4;
             OverField (PyInt 5) 4; FoundNewFactor 6; FoundNewFactor 3]
  = [3; 4].
Proof.
  pose proof (probe_output Reference.factor_list 5 1 24) as [_ Hloud].
  apply (Hloud (St {[3; 4; 6]}
                   [OverField (PyInt 5) 3; FoundNewFactor 4;
                    OverField (PyInt 5) 4; FoundNewFactor 6;
                    FoundNewFactor 3] [3; 4])).
  by vm_compute.
Defined.

End ProbeMore.

(** ** The driver and the script around it *)

Module DriverMore.
Import Py Probe Main Spec ProbeFacts SieveSpec OrchestratorFacts.

Lemma pow_ge_base (p e : Z) :
  2 ≤ p → 1 ≤ e → p ≤ p ^ e ∧ (p ^ e = p → e = 1).
Proof.
  intros Hp He. destruct (decide (e = 1)) as [->|Hne].
  - rewrite Z.pow_1_r. done.
  - assert (p ^ 2 ≤ p ^ e) by (apply Z.pow_le_mono_r; lia).
    rewrite Z.pow_2_r in *. split; [nia|]. intros Heq. nia.
Qed.

Lemma bases_product_le (l : list (Z * Z)) :
  Forall (λ pe, 2 ≤ pe.1 ∧ 1 ≤ pe.2) l →
  0 < product l.*1 ∧
  product l.*1 ≤ foldr (λ pe acc, pe.1 ^ pe.2 * acc) 1 l.
Proof.
  unfold product.
  induction 1 as [|[p e] l [Hp He] _ [IH0 IH]]; [simpl; lia|].
  rewrite fmap_cons. cbn [foldr fst snd] in *.
  destruct (pow_ge_base p e Hp He) as [Hle _].
  split; [apply Z.mul_pos_pos; lia|].
  apply Z.mul_le_mono_nonneg; lia.
Qed.

(** The bases multiply to the number exactly when no exponent exceeds 1. *)
Lemma bases_product_iff (l : list (Z * Z)) :
  Forall (λ pe, 2 ≤ pe.1 ∧ 1 ≤ pe.2) l →
  product l.*1 = foldr (λ pe acc, pe.1 ^ pe.2 * acc) 1 l
  ↔ Forall (λ pe, pe.2 = 1) l.
Proof.
  induction 1 as [|[p e] l [Hp He] Hl IH].
  - split; [constructor|done].
  - destruct (pow_ge_base p e Hp He) as [Hle Hone].
    destruct (bases_product_le l Hl) as [Hpos Hprod].
    unfold product in *. rewrite fmap_cons. cbn [foldr fst snd] in *.
    split.
    + intros Heq.
      assert (p ^ e = p ∧ foldr Z.mul 1 l.*1
                           = foldr (λ pe acc, pe.1 ^ pe.2 * acc) 1 l)
        as [Hp1 Hrest].
      { revert Heq Hle Hprod Hpos.
        generalize (p ^ e) (foldr Z.mul 1 l.*1)
                   (foldr (λ pe acc, pe.1 ^ pe.2 * acc) 1 l).
        intros u a b Heq Hle Hprod Hpos.
        assert (u * a ≤ u * b) by nia. assert (p * a ≤ u * a) by nia.
        assert (a = b) by nia. subst b.
        split; [|done]. apply (Z.mul_reg_r _ _ a); lia. }
      constructor; [by apply Hone|by apply IH].
    + intros [He1 Hrest]%Forall_cons. simpl in He1. subst e.
      rewrite Z.pow_1_r. f_equal. by apply IH.
Qed.

Lemma repeated_add (p e : Z) (fs : gset Z) :
  foldl (λ factors _, {[p]} ∪ factors) fs (range 0 e)
  = if decide (0 < e) then {[p]} ∪ fs else fs.
Proof.
  assert (Hgen : ∀ (ts : list Z) (fs0 : gset Z),
            foldl (λ factors _, {[p]} ∪ factors) fs0 ts
            = match ts with [] => fs0 | _ => {[p]} ∪ fs0 end).
  { intros ts. induction ts as [|t ts IH]; intros fs0; simpl; [done|].
    rewrite IH. destruct ts; [done|].
    by rewrite (assoc_L (∪)), (idemp_L (∪)). }
  rewrite Hgen. unfold range. destruct (decide (0 < e)).
  - rewrite seqZ_cons by lia. done.
  - by rewrite seqZ_nil by lia.
Qed.

Lemma update_with_empties (fs : gset Z) (k : nat) :
  foldl (λ factors result, factors ∪ list_to_set result) fs
        (replicate k (@nil Z))
  = fs.
Proof.
  induction k as [|k IH]; simpl; [done|].
  rewrite <- IH at 2. f_equal. apply union_empty_r_L.
Qed.

Lemma mapM_all_empty {A} (f : A → option (list Z)) (args : list A) :
  Forall (λ a, f a = Some []) args →
  mapM f args = Some (replicate (length args) []).
Proof.
  intros Hall. apply mapM_Some_2.
  induction Hall as [|a args Ha _ IH]; simpl; constructor; done.
Qed.

Section WithCollaborators.
Variable factor_list : Z → Z → option (list (option (list Z))).
Variable isprime : Z → bool.
Variable factorint : Z → list (Z * Z).

Local Abbreviation find_factors :=
  (find_factors_using_finite_fields factor_list isprime factorint).
Local Abbreviation initial := (initial_factors isprime factorint).
Local Abbreviation main :=
  (john_d_cook_main factor_list isprime factorint).

Lemma merged_without_probes (n : Z) (max_power_list : list Z) :
  Forall (λ k, 0 ≤ k ∧ k ≠ 1) max_power_list →
  merged_factors factor_list isprime factorint n max_power_list
  = Some (initial n).
Proof.
  intros Hks. unfold merged_factors.
  rewrite mapM_all_empty.
  - simpl. by rewrite update_with_empties.
  - apply Forall_forall. intros a Ha. unfold args_list in Ha.
    apply list_elem_of_bind in Ha as (p & Ha & _).
    apply list_elem_of_bind in Ha as (k & Ha & Hk).
    apply list_elem_of_singleton in Ha as ->.
    rewrite Forall_forall in Hks. destruct (Hks k Hk).
    apply extension_probe_is_empty; [done..|by left].
Qed.

Lemma find_factors_without_probes (n : Z) (max_power_list : list Z)
    (verbose : bool) :
  Forall (λ k, 0 ≤ k ∧ k ≠ 1) max_power_list →
  verbose = false
  ∨ Forall (λ x, Z.abs x < 10 ^ int_max_str_digits) (elements (initial n)) →
  find_factors n max_power_list verbose
  = Some (sorted (elements (initial n))).
Proof.
  intros Hks Hprint. unfold find_factors_using_finite_fields.
  rewrite print_ints_ok by done. simpl.
  by rewrite merged_without_probes.
Qed.

(** X21.  The driver returns its factors strictly ascending, each one
    once. *)
Theorem find_factors_strictly_ascending (n : Z) (max_power_list l : list Z)
    (verbose : bool) :
  find_factors n max_power_list verbose = Some l → strictly_ascending l.
Proof.
  unfold find_factors_using_finite_fields.
  destruct (print_ints _ _); [|done]. simpl.
  destruct (merged_factors _ _ _ n max_power_list) as [fs|]; [|done].
  simpl. intros [= <-]. unfold strictly_ascending, sorted.
  apply sorted_NoDup_strict.
  - apply (StronglySorted_merge_sort Z.le).
  - rewrite merge_sort_Permutation. apply NoDup_elements.
Qed.

(** X22.  When the power list holds no 1 (as the default [2, 3]), the
    probes add nothing: the driver returns the sorted initial factors,
    whatever the polynomial factorizer would answer.  It returns them when
    it runs quietly, and in a verbose run when every initial factor is
    within the limit on int to str conversion, so that line 113 can print
    the set. *)
Theorem powers_other_than_1_add_nothing (n : Z) (max_power_list : list Z)
    (verbose : bool) :
  Forall (λ k, 0 ≤ k ∧ k ≠ 1) max_power_list →
  verbose = false
  ∨ Forall (λ x, Z.abs x < 10 ^ int_max_str_digits) (elements (initial n)) →
  find_factors n max_power_list verbose
  = Some (sorted (elements (initial n))).
Proof. apply find_factors_without_probes. Qed.

Lemma initial_factors_eq (n : Z) :
  initial n = if isprime n then {[n]}
              else list_to_set (reported_bases (factorint n)).
Proof.
  unfold initial_factors. destruct (isprime n); [apply union_empty_r_L|].
  assert (Hgen : ∀ (l : list (Z * Z)) (acc : gset Z),
            foldl (λ factors pe,
                     foldl (λ factors _, {[pe.1]} ∪ factors) factors
                           (range 0 pe.2)) acc l
            = list_to_set (reported_bases l) ∪ acc).
  { induction l as [|[p e] l IH]; intros acc; simpl.
    - unfold reported_bases. simpl. by rewrite union_empty_l_L.
    - rewrite IH, repeated_add. unfold reported_bases.
      rewrite filter_cons. simpl.
      destruct (decide (0 < e)); simpl; [|done].
      rewrite (assoc_L (∪)). f_equal. apply (comm_L (∪)). }
  rewrite Hgen. apply union_empty_r_L.
Qed.

(** X23.  The initial factor set is [{n}] when [n] passes the primality
    test, and otherwise the set of the bases [factorint] reports with a
    positive exponent: adding a base once per unit of its exponent leaves
    it in the set once. *)
Theorem initial_factors_are_the_bases (n : Z) :
  initial n = if isprime n then {[n]}
              else list_to_set (reported_bases (factorint n)).
Proof. apply initial_factors_eq. Qed.

Lemma int_of_numeral_ok (z : Z) :
  Z.abs z < 10 ^ int_max_str_digits → int_of_numeral z = Some z.
Proof. intros Hz%str_ok_spec. unfold int_of_numeral. by rewrite Hz. Qed.

Lemma int_of_numeral_long (z : Z) :
  10 ^ int_max_str_digits ≤ Z.abs z → int_of_numeral z = None.
Proof.
  intros Hz. unfold int_of_numeral.
  destruct (str_ok z) eqn:E; [|done]. apply str_ok_spec in E. lia.
Qed.

(** X24.  Run on a number that passes the primality test and whose numeral
    has at most 4300 digits, the script finds that number alone and its
    verification succeeds. *)
Theorem main_on_a_prime (n : Z) :
  isprime n = true →
  Z.abs n < 10 ^ int_max_str_digits →
  john_d_cook_main factor_list isprime factorint n = Some ([n], true).
Proof.
  intros Hpr Hn. unfold john_d_cook_main.
  rewrite int_of_numeral_ok by done. simpl.
  assert (Hinit : elements (initial n) = [n])
    by (by rewrite initial_factors_eq, Hpr, elements_singleton).
  rewrite find_factors_without_probes; [|repeat constructor; lia|].
  2:{ right. rewrite Hinit. by constructor. }
  simpl. rewrite Hinit. change (sorted [n]) with [n].
  rewrite print_ints_ok by (right; by constructor). simpl.
  do 2 f_equal.
  apply verify_factorization_product. unfold product. simpl. lia.
Qed.

(** X28.  Run on a numeral of more than 4300 digits the script raises, at
    the [int] of line 95, whatever the libraries would answer. *)
Theorem main_on_a_long_numeral (n : Z) :
  10 ^ int_max_str_digits ≤ Z.abs n →
  john_d_cook_main factor_list isprime factorint n = None.
Proof.
  intros Hn. unfold john_d_cook_main. by rewrite int_of_numeral_long.
Qed.

Lemma reported_bases_all (l : list (Z * Z)) :
  Forall (λ pe, 2 ≤ pe.1 ∧ 1 ≤ pe.2) l → reported_bases l = l.*1.
Proof.
  unfold reported_bases. induction 1 as [|[p e] l [_ He] _ IH]; [done|].
  rewrite filter_cons. simpl in *.
  rewrite decide_True by lia. by rewrite fmap_cons, IH.
Qed.

(** The bases of a factorisation are no larger than the number. *)
Lemma bases_bounded (l : list (Z * Z)) :
  Forall (λ pe, 2 ≤ pe.1 ∧ 1 ≤ pe.2) l →
  Forall (λ b, 0 ≤ b ≤ foldr (λ pe acc, pe.1 ^ pe.2 * acc) 1 l) l.*1.
Proof.
  induction 1 as [|[p e] l [Hp He] Hl IH]; [constructor|].
  rewrite fmap_cons. cbn [foldr fst snd] in *.
  destruct (pow_ge_base p e Hp He) as [Hle _].
  destruct (bases_product_le l Hl) as [Hpos Hprod].
  revert IH Hle Hpos Hprod.
  generalize (p ^ e) (foldr (λ pe acc, pe.1 ^ pe.2 * acc) 1 l)
             (product l.*1).
  intros u b a IH Hle Hpos Hprod. constructor; [nia|].
  eapply Forall_impl; [exact IH|]. simpl. intros x Hx. nia.
Qed.

(** X25.  Run on a number that fails the primality test and whose numeral
    has at most 4300 digits, with [factorint] answering a factorisation
    over distinct bases, the script finds those bases, and its verification
    succeeds exactly when every exponent is 1: the factor set keeps no
    multiplicity. *)
Theorem main_verifies_iff_exponents_are_1 (n : Z) :
  isprime n = false →
  factorisation_of n (factorint n) →
  NoDup (factorint n).*1 →
  Z.abs n < 10 ^ int_max_str_digits →
  ∃ found b,
    main n = Some (found, b) ∧
    found ≡ₚ (factorint n).*1 ∧
    (b = true ↔ Forall (λ pe, pe.2 = 1) (factorint n)).
Proof.
  intros Hpr [Hall Hprod] Hnd Hn. unfold john_d_cook_main.
  rewrite int_of_numeral_ok by done. simpl.
  assert (Hperm : elements (initial n) ≡ₚ (factorint n).*1).
  { rewrite initial_factors_eq, Hpr, reported_bases_all by done.
    by apply elements_list_to_set. }
  assert (Hshort : Forall (λ x, Z.abs x < 10 ^ int_max_str_digits)
                     (factorint n).*1).
  { eapply Forall_impl; [by apply bases_bounded|].
    simpl. intros x Hx. rewrite <- Hprod in Hx. lia. }
  rewrite find_factors_without_probes; [|repeat constructor; lia|].
  2:{ right. by rewrite Hperm. }
  simpl.
  assert (Hsorted : sorted (elements (initial n)) ≡ₚ (factorint n).*1).
  { unfold sorted. by rewrite merge_sort_Permutation. }
  rewrite print_ints_ok by (right; by rewrite Hsorted). simpl.
  eexists _, _. split; [done|]. split; [done|].
  rewrite verify_factorization_product, (product_Permutation _ _ Hsorted).
  rewrite <- bases_product_iff by done. by rewrite <- Hprod.
Qed.

End WithCollaborators.

Lemma find_factors_strictly_ascending_witness :
  strictly_ascending [2; 5; 7; 10].
Proof.
  apply (find_factors_strictly_ascending Reference.factor_list
           Reference.is_prime Reference.factorint 70 [1; 2] [2; 5; 7; 10]
           true).
  by vm_compute.
Defined.

Lemma powers_other_than_1_add_nothing_witness :
  Reference.find_factors_using_finite_fields 12 [2; 3] true
  = Some (sorted (elements (initial_factors Reference.is_prime
                              Reference.factorint 12))).
Proof.
  apply (powers_other_than_1_add_nothing Reference.factor_list
           Reference.is_prime Reference.factorint 12 [2; 3] true).
  - repeat constructor; lia.
  - right. apply forallb_str_ok. by vm_compute.
Defined.

Lemma main_on_a_prime_witness :
  john_d_cook_main Reference.factor_list Reference.is_prime
    Reference.factorint 97 = Some ([97], true).
Proof.
  apply (main_on_a_prime Reference.factor_list Reference.is_prime
           Reference.factorint 97); by vm_compute.
Defined.

Lemma main_on_a_long_numeral_witness :
  john_d_cook_main Reference.factor_list Reference.is_prime
    Reference.factorint (10 ^ 4300) = None.
Proof.
  apply (main_on_a_long_numeral Reference.factor_list Reference.is_prime
           Reference.factorint (10 ^ 4300)).
  rewrite Z.abs_eq by (by apply Z.pow_nonneg). apply Z.le_refl.
Defined.

Lemma main_verifies_iff_exponents_are_1_witness :
  ∃ found b,
    john_d_cook_main Reference.factor_list Reference.is_prime
      Reference.factorint 12 = Some (found, b) ∧
    found ≡ₚ (Reference.factorint 12).*1 ∧
    (b = true ↔ Forall (λ pe, pe.2 = 1) (Reference.factorint 12)).
Proof.
  apply (main_verifies_iff_exponents_are_1 Reference.factor_list
           Reference.is_prime Reference.factorint 12).
  - by vm_compute.
  - change (Reference.factorint 12) with [(2, 2); (3, 1)].
    split; [repeat constructor; simpl; lia|done].
  - change (Reference.factorint 12) with [(2, 2); (3, 1)].
    simpl. apply NoDup_cons. split; [|apply NoDup_singleton].
    intros ?%list_elem_of_singleton. done.
  - by vm_compute.
Defined.

End DriverMore.

(** ** The orchestrator on further targets *)

Module MoreExamples.
Import Py Sieve Probe Orchestrator Main Spec.
Import OrchestratorFacts OrchestratorMore OrchestratorResult.

Lemma never_returns_from_cyclotomic_stage_witness :
  Reference.factor_large_semiprime_fallback 5329 10000 3
  = Some (Exhausted, []) ∧
  Exhausted ≠ Cyclotomic.
Proof.
  assert (R : Reference.factor_large_semiprime_fallback 5329 10000 3
              = Some (Exhausted, [])) by (by vm_compute).
  split; [done|].
  apply (never_returns_from_cyclotomic_stage Reference.factor_unavailable
           Reference.is_prime Reference.GF Reference.cyclotomic_vanishes
           5329 10000 3 Exhausted [] R).
Defined.

Lemma exhausted_means_no_divisor_found_witness :
  @nil Z = [] ∧ Reference.factor_unavailable 149 = None ∧
  Forall (λ p, 149 `mod` p ≠ 0) small_primes ∧
  ∃ root special_primes,
    int_sqrt 149 = Some root ∧
    generate_special_primes (Z.min (root + 1) 10000) = Some special_primes ∧
    Forall (λ p, 149 `mod` p ≠ 0) special_primes.
Proof.
  apply (exhausted_means_no_divisor_found Reference.factor_unavailable
           Reference.is_prime Reference.GF Reference.cyclotomic_vanishes
           149 10000 3 []).
  by vm_compute.
Defined.

Lemma first_small_prime_with_prime_cofactor_witness :
  Reference.factor_large_semiprime_fallback 35 10000 3
  = Some (SmallPrime, [5; 35 `div` 5]) ∧
  verify_factorization 35 [5; 35 `div` 5] = true.
Proof.
  apply (first_small_prime_with_prime_cofactor Reference.factor_unavailable
           Reference.is_prime Reference.GF Reference.cyclotomic_vanishes
           35 5 10000 3 [3]
           [7; 11; 13; 17; 19; 23; 29; 31; 37; 41; 43; 47; 53; 59; 61; 67]).
  - done.
  - done.
  - constructor; [by vm_compute|constructor].
  - done.
  - by vm_compute.
Defined.

Lemma returned_factors_divide_witness :
  Reference.factor_large_semiprime 360 10000 3 = Some (Direct, [2; 3; 5]) ∧
  Forall (λ x, 0 < x ∧ (x | 360)) [2; 3; 5].
Proof.
  assert (R : Reference.factor_large_semiprime 360 10000 3
              = Some (Direct, [2; 3; 5])) by (by vm_compute).
  split; [done|].
  apply (returned_factors_divide Reference.factor Reference.is_prime
           Reference.GF Reference.cyclotomic_vanishes 360 10000 3
           Direct [2; 3; 5]);
    [apply ReferenceFacts.reference_factor_sound|lia|done].
Defined.

Lemma main_check_is_verification_witness :
  rsa_multi_method_main Reference.factor Reference.is_prime Reference.GF
    Reference.cyclotomic_vanishes 15 = Some (Factors [3; 5] (Some true)) ∧
  true = verify_factorization 15 [3; 5].
Proof.
  assert (R : rsa_multi_method_main Reference.factor Reference.is_prime
                Reference.GF Reference.cyclotomic_vanishes 15
              = Some (Factors [3; 5] (Some true))) by (by vm_compute).
  split; [done|].
  destruct (main_check_is_verification Reference.factor Reference.is_prime
              Reference.GF Reference.cyclotomic_vanishes 15 [3; 5] true R)
    as [Hcheck _].
  exact Hcheck.
Defined.

End MoreExamples.

(** ** The sieve drops the prime 7 *)

Module SieveDrops.
Import Py Sieve Spec SieveFacts SieveSpec SieveMore.

(** The sieve's result in terms of the arrays the sieving loop leaves. *)
Lemma generate_special_primes_unfold (N : Z) :
  0 ≤ N →
  ∃ s1 s5,
    sieve_loop ((N - 1) `div` 6) ((N - 5) `div` 6)
      (range 1 (Z.sqrt N `div` 6 + 1))
      (replicate (Z.to_nat ((N - 1) `div` 6 + 1)) true,
       replicate (Z.to_nat ((N - 5) `div` 6 + 1)) true) = Some (s1, s5) ∧
    Z.of_nat (length s1) = (N - 1) `div` 6 + 1 ∧
    generate_special_primes N
    = Some (sorted (([3] ++ survivors 1 s1
                              (range 1 ((N - 1) `div` 6 + 1)))
                    ++ survivors 5 s5 (range 1 ((N - 5) `div` 6 + 1)))).
Proof.
  intros HN. unfold generate_special_primes, np_ones, int_sqrt.
  assert (6 * ((N - 1) `div` 6) ≤ N - 1 < 6 * ((N - 1) `div` 6) + 6).
  { pose proof (Z.mul_div_le (N - 1) 6).
    pose proof (Z.mul_succ_div_gt (N - 1) 6). lia. }
  assert (6 * ((N - 5) `div` 6) ≤ N - 5 < 6 * ((N - 5) `div` 6) + 6).
  { pose proof (Z.mul_div_le (N - 5) 6).
    pose proof (Z.mul_succ_div_gt (N - 5) 6). lia. }
  destruct ((N - 1) `div` 6 + 1 <? 0) eqn:E1; [lia|].
  destruct ((N - 5) `div` 6 + 1 <? 0) eqn:E5; [lia|].
  destruct (N <? 0) eqn:E0; [lia|]. simpl.
  destruct (sieve_loop_sized ((N - 1) `div` 6) ((N - 5) `div` 6)
              (range 1 (Z.sqrt N `div` 6 + 1))
              (replicate (Z.to_nat ((N - 1) `div` 6 + 1)) true,
               replicate (Z.to_nat ((N - 5) `div` 6 + 1)) true))
    as ([s1 s5] & Hloop & [Hs1 Hs5]).
  { apply Forall_forall. intros i Hi%range_bounds.
    split; [lia|]. apply sieving_index_in_range; lia. }
  { split; simpl; rewrite length_replicate; lia. }
  rewrite Hloop. simpl in *.
  rewrite collect_survivors.
  2:{ apply Forall_forall. intros i Hi%range_bounds. lia. }
  simpl. rewrite collect_survivors.
  2:{ apply Forall_forall. intros i Hi%range_bounds. lia. }
  simpl. by exists s1, s5.
Qed.

Lemma mark_not_set (js : list Z) (a a' : list bool) (k : nat) :
  Forall (λ j, 0 ≤ j < Z.of_nat (length a)) js → mark js a = Some a' →
  Z.of_nat k ∈ js → a' !! k ≠ Some true.
Proof.
  revert a. induction js as [|j js IH]; intros a Hjs Hm Hk Hb.
  - by apply elem_of_nil in Hk.
  - apply Forall_cons in Hjs as [Hj Hjs]. simpl in Hm.
    destruct (np_set_in_range a j false Hj) as (a1 & Hset & Hlen1).
    rewrite Hset in Hm. simpl in Hm.
    destruct (mark_lookup js a1 a' k) as [Hk1 Hnotin]; [|done|done|].
    { eapply Forall_impl; [apply Hjs|]. simpl. lia. }
    apply elem_of_cons in Hk as [Hk|Hk]; [|done].
    unfold np_set in Hset. rewrite np_index_in_range in Hset by done.
    simpl in Hset. injection Hset as <-.
    rewrite <- Hk, Nat2Z.id, list_lookup_insert_eq in Hk1 by lia. done.
Qed.

(** A marking loop clears every index of its range. *)
Lemma mark_clears (js : list Z) (a a' : list bool) (k : nat) :
  Forall (λ j, 0 ≤ j < Z.of_nat (length a)) js → mark js a = Some a' →
  Z.of_nat k ∈ js → a' !! k = Some false.
Proof.
  intros Hjs Hm Hk.
  pose proof (mark_not_set js a a' k Hjs Hm Hk) as Hnot.
  destruct (mark_in_range js a Hjs) as (a'' & Hm' & Hlen).
  assert (a'' = a') as -> by congruence.
  assert (Hlt : (k < length a')%nat).
  { rewrite Hlen. rewrite Forall_forall in Hjs. specialize (Hjs _ Hk). lia. }
  by destruct (lookup_lt_is_Some_2 a' k Hlt) as [[|] Hb].
Qed.

Lemma first_step_clears_7 (max_idx_1 max_idx_5 : Z) st' :
  1 ≤ max_idx_1 → 1 ≤ max_idx_5 →
  sieve_step max_idx_1 max_idx_5 1
    (replicate (Z.to_nat (max_idx_1 + 1)) true,
     replicate (Z.to_nat (max_idx_5 + 1)) true) = Some st' →
  st'.1 !! 1%nat = Some false.
Proof.
  intros H1 H5. unfold sieve_step. simpl fst.
  rewrite np_get_in_range by (rewrite length_replicate; lia).
  rewrite lookup_replicate_2 by lia. simpl.
  set (st0 := (replicate (Z.to_nat (max_idx_1 + 1)) true,
               replicate (Z.to_nat (max_idx_5 + 1)) true)).
  assert (Hsized : sized max_idx_1 max_idx_5 st0).
  { split; simpl; rewrite length_replicate; lia. }
  destruct (cross_out_1_sized max_idx_1 max_idx_5 1 st0 ltac:(lia) Hsized)
    as (sta & Hcross & Hsta).
  rewrite Hcross. simpl.
  rewrite (proj2 (Z.leb_le 1 max_idx_5)) by lia.
  assert (Hb5 : np_get sta.2 1 = Some true).
  { rewrite np_get_in_range by (destruct Hsta; lia).
    assert (Hlt : (Z.to_nat 1 < length sta.2)%nat) by (destruct Hsta; lia).
    destruct (lookup_lt_is_Some_2 sta.2 _ Hlt) as [[|] Hb]; [done|].
    exfalso.
    destruct (cross_out_1_cleared max_idx_1 max_idx_5 1 st0 sta
                ltac:(lia) Hsized Hcross (Z.to_nat 1)) as [_ Hhit].
    destruct Hhit as [[c Hc] _]; [|done|].
    - simpl. apply lookup_replicate_2. lia.
    - change (6 * Z.of_nat (Z.to_nat 1) + 5) with 11 in Hc. lia. }
  rewrite Hb5. simpl. unfold cross_out_5.
  change ((6 * 1 + 5) * 1 - 1) with 10. change (10 `div` 6) with 1.
  change (0 <? 1) with true. cbv iota.
  destruct (mark (range3 1 (max_idx_1 + 1) (6 * 1 + 5)) sta.1) as [a1|]
    eqn:Hm1; [|done]. simpl.
  destruct (mark _ sta.2) as [a5|]; [|done]. simpl.
  intros [= <-]. simpl.
  apply (mark_clears (range3 1 (max_idx_1 + 1) (6 * 1 + 5)) sta.1);
    [|done|].
  - apply Forall_forall. intros j Hj%range3_bounds; [|lia].
    destruct Hsta. lia.
  - unfold range3. apply list_elem_of_fmap. exists 0. split; [done|].
    apply elem_of_seqZ. split; [lia|].
    apply Z.div_str_pos. lia.
Qed.

(** X8.  For every bound [N >= 36] the prime 7 is missing from the
    result: in the first pass of the sieving loop the marks for p = 11
    start at index 1 of the 6k+1 array, which stands for 7. *)
Theorem seven_is_dropped (N : Z) (l : list Z) :
  36 ≤ N → generate_special_primes N = Some l → 7 ∉ l.
Proof.
  intros HN Hl.
  destruct (generate_special_primes_unfold N ltac:(lia))
    as (s1 & s5 & Hloop & Hlen & Hgen).
  rewrite Hgen in Hl. injection Hl as <-.
  assert (6 * ((N - 1) `div` 6) ≤ N - 1 < 6 * ((N - 1) `div` 6) + 6).
  { pose proof (Z.mul_div_le (N - 1) 6).
    pose proof (Z.mul_succ_div_gt (N - 1) 6). lia. }
  assert (6 * ((N - 5) `div` 6) ≤ N - 5 < 6 * ((N - 5) `div` 6) + 6).
  { pose proof (Z.mul_div_le (N - 5) 6).
    pose proof (Z.mul_succ_div_gt (N - 5) 6). lia. }
  assert (Hroot : 1 ≤ Z.sqrt N `div` 6).
  { apply Z.div_le_lower_bound; [lia|].
    apply Z.sqrt_le_square; lia. }
  rewrite ProbeLoop.range_cons in Hloop by lia. simpl in Hloop.
  destruct (sieve_step _ _ 1 _) as [st1|] eqn:Hstep; [|done].
  simpl in Hloop.
  apply first_step_clears_7 in Hstep; [|lia..].
  assert (Hs1 : s1 !! 1%nat ≠ Some true).
  { intros Hset.
    assert (Hidx : Forall (λ i, 1 ≤ i)
                     (range (1 + 1) (Z.sqrt N `div` 6 + 1)))
      by (apply Forall_forall; intros i Hi%range_bounds; lia).
    destruct (sieve_loop_clears _ _ _ _ _ 1%nat Hidx Hloop) as [Hkeep _].
    simpl in Hkeep. specialize (Hkeep Hset). congruence. }
  unfold sorted. rewrite merge_sort_Permutation.
  rewrite elem_of_cons, elem_of_app.
  intros [H7|[H7|H7]].
  - lia.
  - unfold survivors in H7. apply list_elem_of_fmap in H7 as (i & Hi & Hin).
    assert (i = 1) as -> by lia.
    apply list_elem_of_filter in Hin as [Hget _].
    rewrite np_get_in_range in Hget by lia. done.
  - apply survivors_elem in H7 as (i & Hi & _). lia.
Qed.

Lemma seven_is_dropped_witness :
  36 ≤ 100 ∧
  (7 ∉ [3; 11; 13; 17; 19; 23; 25; 29; 31; 37; 41; 43; 47; 55; 59; 61; 65;
        67; 71; 79; 83; 85; 89; 95; 97]).
Proof.
  split; [lia|].
  apply (seven_is_dropped 100); [lia|by vm_compute].
Defined.

End SieveDrops.
